(** * relalgFromAst: translation of the SQL and the relational-algebra AST
      into the relational-algebra operator tree

    A shallow embedding of [src/db/translate/relalgFromAst.ts].  The
    TypeScript functions [parseJoinCondition], [recValueExpr],
    [setAdditionalData], [rec], [getSelection], [isNamedColumn],
    [parseStatement], [recRANode] and the two entry points are translated
    one to one; a thrown exception is the [Err] branch of the [result]
    monad, and statements are sequenced in the order the source evaluates
    them, so that the error that surfaces is the one the source throws.

    The numbers of LIMIT and OFFSET are integers, modelled as [Z]; their
    sum is the binary64 sum the source computes ([numberAdd]). *)

From Stdlib Require Import ZArith String List Bool Lia.
From stdpp Require Import base option list strings gmap fin_maps.

Local Open Scope string_scope.
Local Open Scope Z_scope.

(** ** Source positions, literals, diagnostics *)

Record Position := mkPosition {
  pos_offset : nat;
  pos_line : nat;
  pos_column : nat;
}.

(** The [codeInfo] record the parser attaches to every AST node. *)
Record CodeInfo := mkCodeInfo {
  loc_start : Position;
  loc_end : Position;
  text : string;
}.

(** A JavaScript value as it occurs as a constant of an expression or as
    a metadata value. *)
Inductive literal : Type :=
| LString (s : string)
| LNumber (z : Z)
| LInfinity (negative : bool)
| LBoolean (b : bool)
| LNull.

(** [i18n.t(key, params)]: the translator supplies the message key and
    the named parameters, the text is resolved elsewhere. *)
Record Message := mkMessage {
  msg_key : string;
  msg_params : list (string * string);
}.

Definition i18n_t (key : string) (params : list (string * string)) : Message :=
  mkMessage key params.

(** What the translators throw: the user-facing [ExecutionError] (message
    and position), [new Error(message)] for the cases that should not
    happen, and the [TypeError] the engine raises for a property read
    through [undefined] or [null] and for a call of something that is not a
    function (its text is the engine's). *)
Inductive TranslateError : Type :=
| ExecutionError (message : Message) (codeInfo : option CodeInfo)
| InternalError (message : string)
| TypeError.

Inductive result (A : Type) : Type :=
| OK (a : A)
| Err (e : TranslateError).

Arguments OK {A} a.
Arguments Err {A} e.

Definition bind {A B : Type} (m : result A) (k : A -> result B) : result B :=
  match m with
  | OK a => k a
  | Err e => Err e
  end.

Notation "'do' x <- m ; k" := (bind m (fun x => k))
  (at level 10, x name, m at level 100, k at level 200).
Notation "'do_' m ; k" := (bind m (fun _ => k))
  (at level 10, m at level 100, k at level 200).

Definition isOK {A : Type} (m : result A) : bool :=
  match m with OK _ => true | Err _ => false end.

(** ** Value expressions *)

(** The expression AST shared by both grammars: [datatype], [func],
    [args], [codeInfo], [wrappedInParentheses].  An argument is a literal
    (for [func = 'constant'] and for the two names of a column reference) or
    a nested expression. *)
Inductive valueExpr : Type :=
| mkValueExpr (datatype func : string) (args : list valueExprArg)
    (codeInfo : option CodeInfo) (wrappedInParentheses : bool)
with valueExprArg : Type :=
| argLiteral (v : literal)
| argExpr (e : valueExpr).

(** The evaluable expression tree ([ValueExpr.ValueExprColumnValue] and
    [ValueExpr.ValueExprGeneric]).  An argument of a generic node is either
    taken verbatim from the caller or a nested node. *)
Inductive ValueExpr : Type :=
| ValueExprColumnValue (arg0 arg1 : option valueExprArg)
    (e_codeInfo : option CodeInfo) (e_wrapped : bool)
| ValueExprGeneric (datatype func : string) (args : list ValueExprArg)
    (e_codeInfo : option CodeInfo) (e_wrapped : bool)
with ValueExprArg : Type :=
| Verbatim (a : valueExprArg)
| Nested (e : ValueExpr).

(** [new ValueExpr.ValueExprGeneric(datatype, func, args)] and
    [new ValueExpr.ValueExprColumnValue(a, b)]: a fresh node carries no
    position and is not parenthesised. *)
Definition newValueExprGeneric (datatype func : string) (args : list ValueExprArg)
  : ValueExpr :=
  ValueExprGeneric datatype func args None false.

Definition newValueExprColumnValue (a b : option valueExprArg) : ValueExpr :=
  ValueExprColumnValue a b None false.

Definition expr_setCodeInfoObject (e : ValueExpr) (ci : option CodeInfo) : ValueExpr :=
  match e with
  | ValueExprColumnValue a b _ w => ValueExprColumnValue a b ci w
  | ValueExprGeneric d f args _ w => ValueExprGeneric d f args ci w
  end.

Definition expr_setWrappedInParentheses (e : ValueExpr) (w : bool) : ValueExpr :=
  match e with
  | ValueExprColumnValue a b ci _ => ValueExprColumnValue a b ci w
  | ValueExprGeneric d f args ci _ => ValueExprGeneric d f args ci w
  end.

(** The [case] labels of the [switch] on [n.datatype]. *)
Definition implementedDatatype (datatype : string) : bool :=
  String.eqb datatype "string" || String.eqb datatype "number"
  || String.eqb datatype "boolean" || String.eqb datatype "date"
  || String.eqb datatype "null".

Fixpoint recValueExpr (n : valueExpr) : result ValueExpr :=
  match n with
  | mkValueExpr datatype func args codeInfo wrapped =>
    do node <-
      (if String.eqb datatype "null" && String.eqb func "columnValue" then
         OK (newValueExprColumnValue (args !! 0%nat) (args !! 1%nat))
       else if implementedDatatype datatype then
         do tmp <-
           (fix loop (l : list valueExprArg) : result (list ValueExprArg) :=
              match l with
              | [] => OK []
              | a :: rest =>
                do x <-
                  (if String.eqb func "constant" then OK (Verbatim a)
                   else
                     match a with
                     | argExpr e => do e' <- recValueExpr e; OK (Nested e')
                     | argLiteral LNull =>
                       Err TypeError
                     | argLiteral _ => Err (InternalError "not implemented yet")
                     end);
                do xs <- loop rest;
                OK (x :: xs)
              end) args;
         OK (newValueExprGeneric datatype func tmp)
       else Err (InternalError "not implemented yet"));
    let node := expr_setCodeInfoObject node codeInfo in
    OK (if wrapped then expr_setWrappedInParentheses node true else node)
  end.

(** ** Join conditions *)

(** The raw join predicate: [null], a list of column names, or a boolean
    expression. *)
Inductive joinConditionAst : Type :=
| condNull
| condColumns (cols : list string)
| condExpr (e : valueExpr).

Inductive JoinCondition : Type :=
| natural (restrictToColumns : option (list string))
| theta (joinExpression : ValueExpr).

Definition parseJoinCondition (condition : joinConditionAst) : result JoinCondition :=
  match condition with
  | condNull => OK (natural None)
  | condColumns cols => OK (natural (Some cols))
  | condExpr e => do x <- recValueExpr e; OK (theta x)
  end.

(** ** The operator tree *)

Record Warning := mkWarning {
  w_message : Message;
  w_codeInfo : option CodeInfo;
}.

(** Modelled from the spec: the node classes of [src/db/exec] ([RANode] and
    its subclasses) are imported by [relalgFromAst.ts], their declarations
    are elsewhere.  Every node is annotated with a source position, a
    metadata mapping, a list of warnings and the parenthesization flag; no
    constructor is given a position, so a node that was just built has none,
    and it has no metadata, no warnings and is not parenthesised. *)
Record NodeInfo := mkNodeInfo {
  n_codeInfo : option CodeInfo;
  n_metaData : gmap string literal;
  n_warnings : list Warning;
  n_wrappedInParentheses : bool;
}.

Definition newNodeInfo : NodeInfo := mkNodeInfo None ∅ [] false.

Record Column := mkColumn {
  col_name : string;
  col_relAlias : option string;
}.

(** A column reference of either AST: [{name, relAlias}]. *)
Record columnName := mkColumnName {
  name : string;
  relAlias : option string;
}.

(** An aggregate-function call of the SELECT list (SQL) or of a group-by
    node (RA); it is handed to [GroupBy] as it is. *)
Record AggregateFunction := mkAggregateFunction {
  aggFunction : string;
  agg_col : option columnName;
  agg_name : string;
}.

Inductive ProjectionColumn : Type :=
| projColumn (c : Column)
| projExpr (name : string) (relAlias : option string) (child : ValueExpr).

Record Renaming := mkRenaming {
  ren_newName : string;
  ren_oldName : string;
  ren_oldRelAlias : option string;
}.

Record SchemaColumn := mkSchemaColumn {
  sc_name : string;
  sc_relAlias : option string;
  sc_type : string;
}.

Definition Schema : Type := list SchemaColumn.
Definition Row : Type := list literal.

(** Modelled from the spec: the operator tree, one constructor per node
    class, with the arguments the translators pass to [new]. *)
Inductive RANode : Type :=
| Relation (name : string) (schema : Schema) (rows : list Row) (info : NodeInfo)
| Selection (child : RANode) (condition : ValueExpr) (info : NodeInfo)
| Projection (child : RANode) (columns : list ProjectionColumn) (info : NodeInfo)
| OrderBy (child : RANode) (orderCols : list Column) (orderAsc : list bool)
    (info : NodeInfo)
| GroupBy (child : RANode) (groupByCols : list columnName)
    (aggregateFunctions : list AggregateFunction) (info : NodeInfo)
| RenameColumns (child : RANode) (renamings : list Renaming) (info : NodeInfo)
| RenameRelation (child : RANode) (newRelAlias : string) (info : NodeInfo)
| CrossJoin (child child2 : RANode) (info : NodeInfo)
| InnerJoin (child child2 : RANode) (condition : JoinCondition) (info : NodeInfo)
| LeftOuterJoin (child child2 : RANode) (condition : JoinCondition) (info : NodeInfo)
| RightOuterJoin (child child2 : RANode) (condition : JoinCondition) (info : NodeInfo)
| FullOuterJoin (child child2 : RANode) (condition : JoinCondition) (info : NodeInfo)
| SemiJoin (child child2 : RANode) (isLeft : bool) (info : NodeInfo)
| AntiJoin (child child2 : RANode) (info : NodeInfo)
| Union (child child2 : RANode) (info : NodeInfo)
| Intersect (child child2 : RANode) (info : NodeInfo)
| Difference (child child2 : RANode) (info : NodeInfo)
| Division (child child2 : RANode) (info : NodeInfo).

Definition nodeInfo (n : RANode) : NodeInfo :=
  match n with
  | Relation _ _ _ i | Selection _ _ i | Projection _ _ i | OrderBy _ _ _ i
  | GroupBy _ _ _ i | RenameColumns _ _ i | RenameRelation _ _ i
  | CrossJoin _ _ i | InnerJoin _ _ _ i | LeftOuterJoin _ _ _ i
  | RightOuterJoin _ _ _ i | FullOuterJoin _ _ _ i | SemiJoin _ _ _ i
  | AntiJoin _ _ i | Union _ _ i | Intersect _ _ i | Difference _ _ i
  | Division _ _ i => i
  end.

Definition updateInfo (f : NodeInfo -> NodeInfo) (n : RANode) : RANode :=
  match n with
  | Relation a b c i => Relation a b c (f i)
  | Selection a b i => Selection a b (f i)
  | Projection a b i => Projection a b (f i)
  | OrderBy a b c i => OrderBy a b c (f i)
  | GroupBy a b c i => GroupBy a b c (f i)
  | RenameColumns a b i => RenameColumns a b (f i)
  | RenameRelation a b i => RenameRelation a b (f i)
  | CrossJoin a b i => CrossJoin a b (f i)
  | InnerJoin a b c i => InnerJoin a b c (f i)
  | LeftOuterJoin a b c i => LeftOuterJoin a b c (f i)
  | RightOuterJoin a b c i => RightOuterJoin a b c (f i)
  | FullOuterJoin a b c i => FullOuterJoin a b c (f i)
  | SemiJoin a b c i => SemiJoin a b c (f i)
  | AntiJoin a b i => AntiJoin a b (f i)
  | Union a b i => Union a b (f i)
  | Intersect a b i => Intersect a b (f i)
  | Difference a b i => Difference a b (f i)
  | Division a b i => Division a b (f i)
  end.

(** Modelled from the spec: the setters of [RANode] ([setCodeInfoObject],
    [setMetaData], [addWarning], [setWrappedInParentheses]) overwrite the
    position, bind a metadata key, append a warning and set the flag of the
    node they are called on. *)
Definition setCodeInfoObject (n : RANode) (ci : option CodeInfo) : RANode :=
  updateInfo (fun i =>
    mkNodeInfo ci (n_metaData i) (n_warnings i) (n_wrappedInParentheses i)) n.

Definition setMetaData (n : RANode) (key : string) (value : literal) : RANode :=
  updateInfo (fun i =>
    mkNodeInfo (n_codeInfo i) (<[key := value]> (n_metaData i)) (n_warnings i)
      (n_wrappedInParentheses i)) n.

Definition addWarning (n : RANode) (message : Message) (ci : option CodeInfo) : RANode :=
  updateInfo (fun i =>
    mkNodeInfo (n_codeInfo i) (n_metaData i) (n_warnings i ++ [mkWarning message ci])
      (n_wrappedInParentheses i)) n.

Definition setWrappedInParentheses (n : RANode) (w : bool) : RANode :=
  updateInfo (fun i =>
    mkNodeInfo (n_codeInfo i) (n_metaData i) (n_warnings i) w) n.

(** The nodes of a tree, in preorder. *)
Fixpoint nodes (n : RANode) : list RANode :=
  n ::
  match n with
  | Relation _ _ _ _ => []
  | Selection c _ _ | Projection c _ _ | OrderBy c _ _ _ | GroupBy c _ _ _
  | RenameColumns c _ _ | RenameRelation c _ _ => nodes c
  | CrossJoin a b _ | InnerJoin a b _ _ | LeftOuterJoin a b _ _
  | RightOuterJoin a b _ _ | FullOuterJoin a b _ _ | SemiJoin a b _ _
  | AntiJoin a b _ | Union a b _ | Intersect a b _ | Difference a b _
  | Division a b _ => nodes a ++ nodes b
  end.

Definition hasCodeInfo (n : RANode) : bool :=
  match n_codeInfo (nodeInfo n) with Some _ => true | None => false end.

(** Every node of the tree carries a source position. *)
Definition allPositioned (n : RANode) : bool := forallb hasCodeInfo (nodes n).

(** ** The relation catalog *)

(** Modelled from the spec: a base relation of the catalog; [copy()] yields
    an independent duplicate of the object, which becomes a leaf of the
    tree. *)
Record RelationObject := mkRelationObject {
  rel_name : string;
  rel_schema : Schema;
  rel_rows : list Row;
  rel_info : NodeInfo;
}.

Definition copy (r : RelationObject) : RANode :=
  Relation (rel_name r) (rel_schema r) (rel_rows r) (rel_info r).

(** The members every object inherits from [Object.prototype]. *)
Definition objectPrototypeMembers : list string :=
  ["constructor"; "__defineGetter__"; "__defineSetter__"; "hasOwnProperty";
   "__lookupGetter__"; "__lookupSetter__"; "isPrototypeOf"; "propertyIsEnumerable";
   "toString"; "valueOf"; "__proto__"; "toLocaleString"].

Definition isObjectPrototypeMember (name : string) : bool :=
  existsb (String.eqb name) objectPrototypeMembers.

(** What [relations[name]] can be when it is not [undefined]: a relation, or
    a member inherited from [Object.prototype]. *)
Inductive catalogValue : Type :=
| relationValue (r : RelationObject)
| inheritedMember (name : string).

(** [relations[name]]: the catalog is an ordinary JavaScript object used as
    a map.  A key may be bound to [undefined] ([Some None]); reading a name
    that is not a key goes on to [Object.prototype], and yields [undefined]
    ([None]) when the name is not there either. *)
Definition lookupRelation (relations : gmap string (option RelationObject))
  (name : string) : option catalogValue :=
  match relations !! name with
  | Some (Some r) => Some (relationValue r)
  | Some None => None
  | None =>
    if isObjectPrototypeMember name then Some (inheritedMember name) else None
  end.

(** ** The SQL AST *)

(** Modelled from the spec: the declarations of the two AST forms ([sqlAst],
    [relalgAst]) are not in [relalgFromAst.ts]; the node types below have the
    fields the translators read.  Every AST node of either grammar carries,
    besides its own fields, the source position (tested at run time by the
    SQL translator, so it may be missing here), the parenthesization flag
    and the optional metadata mapping (its own enumerable properties). *)
Record astInfo := mkAstInfo {
  codeInfo : option CodeInfo;
  wrappedInParentheses : bool;
  metaData : option (gmap string literal);
}.

(** An entry of the SELECT list, by its [type] tag. *)
Inductive projectionArg : Type :=
| sel_aggFunction (a : AggregateFunction)
| sel_namedColumnExpr (name : string) (relAlias : option string) (child : valueExpr)
| sel_column (name : string) (relAlias : option string) (alias : option string)
| sel_other (type : string).

Record selectClause := mkSelectClause {
  distinct : bool;
  sel_arg : list projectionArg;
  sel_codeInfo : option CodeInfo;
}.

(** The WHERE and the HAVING clause: [{arg, codeInfo}]. *)
Record conditionClause := mkConditionClause {
  cl_arg : valueExpr;
  cl_codeInfo : option CodeInfo;
}.

Record orderByArg := mkOrderByArg {
  asc : bool;
  col : columnName;
}.

Inductive joinKind : Type := innerJoin | leftOuterJoin | rightOuterJoin | fullOuterJoin.
Inductive setOperator : Type := union | intersect | except.

(** The fields of a node of type ['statement']. *)
Record statementOf (node : Type) := mkStatement {
  select : selectClause;
  from : node;
  where_ : option conditionClause;
  groupBy : option (list columnName);
  having : option conditionClause;
  numAggregationColumns : Z;
}.

Arguments mkStatement {node}.
Arguments select {node}.
Arguments from {node}.
Arguments where_ {node}.
Arguments groupBy {node}.
Arguments having {node}.
Arguments numAggregationColumns {node}.

#[warnings="-register-all"]
Inductive astNode : Type :=
| sql_relation (name : string) (relAlias : option string) (i : astInfo)
| sql_statement (s : statementOf astNode) (i : astInfo)
| sql_renameRelation (child : astNode) (newRelAlias : string) (i : astInfo)
| sql_relationFromSubstatement (statement : astNode) (relAlias : string) (i : astInfo)
| sql_join (type : joinKind) (child child2 : astNode) (cond : joinConditionAst)
    (i : astInfo)
| sql_crossJoin (child child2 : astNode) (i : astInfo)
| sql_naturalJoin (child child2 : astNode) (i : astInfo)
| sql_setOperator (type : setOperator) (child child2 : astNode) (all : bool)
    (i : astInfo)
| sql_orderBy (child : astNode) (arg : list orderByArg) (i : astInfo)
| sql_limit (child : astNode) (limit offset : Z) (i : astInfo)
| sql_other (type : string) (i : astInfo).

Definition statement : Type := statementOf astNode.

Definition astNodeInfo (n : astNode) : astInfo :=
  match n with
  | sql_relation _ _ i | sql_statement _ i | sql_renameRelation _ _ i
  | sql_relationFromSubstatement _ _ i | sql_join _ _ _ _ i
  | sql_crossJoin _ _ i | sql_naturalJoin _ _ i | sql_setOperator _ _ _ _ i
  | sql_orderBy _ _ i | sql_limit _ _ _ i | sql_other _ i => i
  end.

(** ** The SQL translator *)

(** [setCodeInfoFromNode(raNode, astNode)], on the [codeInfo] of the AST
    node. *)
Definition setCodeInfoFromNode (raNode : RANode) (astCodeInfo : option CodeInfo)
  : result RANode :=
  match astCodeInfo with
  | None => Err (InternalError "should not happen")
  | Some ci => OK (setCodeInfoObject raNode (Some ci))
  end.

(** [arg.type === 'column' && arg.alias]: the alias is tested for
    truthiness, so a missing alias and the empty string both fail. *)
Definition isNamedColumn (arg : projectionArg) : bool :=
  match arg with
  | sel_column _ _ (Some alias) => negb (String.eqb alias "")
  | _ => false
  end.

(** The test of the projection stage: exactly one entry, a plain column
    named [*] whose [relAlias] is [null]. *)
Definition isBareWildcard (projectionArgs : list projectionArg) : bool :=
  match projectionArgs with
  | [sel_column name None _] => String.eqb name "*"
  | _ => false
  end.

(** The ORDER BY loop: parallel lists of columns and directions. *)
Definition orderColsOf (arg : list orderByArg) : list Column :=
  map (fun e => mkColumn (name (col e)) (relAlias (col e))) arg.

Definition orderAscOf (arg : list orderByArg) : list bool := map asc arg.

(** The two predicates of the LIMIT/OFFSET lowering. *)
Definition conditionOffset (offset : Z) : ValueExpr :=
  newValueExprGeneric "boolean" ">"
    [Nested (newValueExprGeneric "number" "rownum" []);
     Nested (newValueExprGeneric "number" "constant"
               [Verbatim (argLiteral (LNumber offset))])].

(** The binary64 number nearest to the integer [z], ties to even: an
    integer below [2^53] in absolute value is a binary64 number; a larger one
    keeps its 53 leading bits, rounded. *)
Definition roundToDouble (z : Z) : Z :=
  let a := Z.abs z in
  if a <? 2 ^ 53 then z
  else
    let e := Z.log2 a - 52 in
    let q := a / 2 ^ e in
    let r := a mod 2 ^ e in
    let half := 2 ^ (e - 1) in
    let q' :=
      if r <? half then q
      else if half <? r then q + 1
      else if Z.even q then q else q + 1 in
    Z.sgn z * (q' * 2 ^ e).

(** [a + b] on two numbers with integer values: the exact sum, rounded to
    binary64; beyond the largest binary64 number the sum is [Infinity] or
    [-Infinity]. *)
Definition numberAdd (a b : Z) : literal :=
  let sum := roundToDouble (a + b) in
  if 2 ^ 1024 <=? Z.abs sum then LInfinity (sum <? 0) else LNumber sum.

Definition conditionLimit (limit offset : Z) : ValueExpr :=
  newValueExprGeneric "boolean" "<="
    [Nested (newValueExprGeneric "number" "rownum" []);
     Nested (newValueExprGeneric "number" "constant"
               [Verbatim (argLiteral (numberAdd limit offset))])].

Section SQL.

(** The relation catalog of the call, and the structural self-check
    [RANode.check] of the operator classes, which either passes or
    throws. *)
Variable relations : gmap string (option RelationObject).
Variable check : RANode -> result unit.

Definition getSelection (root : RANode) (condition : valueExpr)
  (ci : option CodeInfo) : result RANode :=
  do_ check root;
  do c <- recValueExpr condition;
  let node := Selection root c newNodeInfo in
  OK (setCodeInfoObject node ci).

(** The stages of [parseStatement], one per commented block. *)

(* from-CLAUSE *)
Definition parseStatement_from (rec : astNode -> result RANode) (statement : statement)
  : result RANode :=
  do root <- rec (from statement);
  do root <- setCodeInfoFromNode root (codeInfo (astNodeInfo (from statement)));
  do_ check root;
  OK root.

(* selection, having *)
Definition parseStatement_condition (clause : option conditionClause) (root : RANode)
  : result RANode :=
  match clause with
  | None => OK root
  | Some c =>
    do root <- getSelection root (cl_arg c) (cl_codeInfo c);
    setCodeInfoFromNode root (cl_codeInfo c)
  end.

(* filter aggFunctions from SELECT list *)
Fixpoint aggregateFunctionsOf (projectionArgs : list projectionArg)
  : list AggregateFunction :=
  match projectionArgs with
  | [] => []
  | sel_aggFunction a :: rest => a :: aggregateFunctionsOf rest
  | _ :: rest => aggregateFunctionsOf rest
  end.

(* group-by + aggregation *)
Definition parseStatement_groupBy (statement : statement) (root : RANode) : RANode :=
  if bool_decide (groupBy statement <> None) || (0 <? numAggregationColumns statement)
  then
    let aggregateFunctions := aggregateFunctionsOf (sel_arg (select statement)) in
    let groupByCols := default [] (groupBy statement) in
    if (0 <? length aggregateFunctions)%nat then
      GroupBy root groupByCols aggregateFunctions newNodeInfo
    else
      let projections :=
        map (fun c => projColumn (mkColumn (name c) (relAlias c))) groupByCols in
      Projection root projections newNodeInfo
  else root.

(* the loop of the projection stage: the projected columns and [colsRenamed] *)
Fixpoint projectionsOf (projectionArgs : list projectionArg)
  : result (list ProjectionColumn * bool) :=
  match projectionArgs with
  | [] => OK ([], false)
  | c :: rest =>
    do p <-
      match c with
      | sel_aggFunction a => OK (projColumn (mkColumn (agg_name a) None), false)
      | sel_namedColumnExpr name relAlias child =>
        do e <- recValueExpr child; OK (projExpr name relAlias e, false)
      | sel_column name relAlias _ =>
        OK (projColumn (mkColumn name relAlias), isNamedColumn c)
      | sel_other _ => Err (InternalError "this should not happen")
      end;
    do ps <- projectionsOf rest;
    OK (fst p :: fst ps, snd p || snd ps)
  end.

(* projection *)
Definition parseStatement_projection (statement : statement) (root : RANode)
  : result (RANode * bool) :=
  let projectionArgs := sel_arg (select statement) in
  if isBareWildcard projectionArgs then OK (root, false)
  else
    do ps <- projectionsOf projectionArgs;
    do root <- setCodeInfoFromNode (Projection root (fst ps) newNodeInfo)
                 (sel_codeInfo (select statement));
    OK (root, snd ps).

(* the renamings registered by the rename stage, in SELECT-list order *)
Fixpoint renamingsOf (projectionArgs : list projectionArg) : list Renaming :=
  match projectionArgs with
  | [] => []
  | arg :: rest =>
    match arg with
    | sel_column name relAlias (Some alias) =>
      if isNamedColumn arg then mkRenaming alias name relAlias :: renamingsOf rest
      else renamingsOf rest
    | _ => renamingsOf rest
    end
  end.

(* rename columns *)
Definition parseStatement_rename (statement : statement) (root : RANode)
  (colsRenamed : bool) : RANode :=
  if colsRenamed then
    RenameColumns root (renamingsOf (sel_arg (select statement))) newNodeInfo
  else root.

Definition parseStatement (rec : astNode -> result RANode) (statement : statement)
  : result RANode :=
  do root <- parseStatement_from rec statement;
  do root <- parseStatement_condition (where_ statement) root;
  let root := parseStatement_groupBy statement root in
  do root <- parseStatement_condition (having statement) root;
  do rc <- parseStatement_projection statement root;
  OK (parseStatement_rename statement (fst rc) (snd rc)).

Fixpoint rec (nRaw : astNode) : result RANode :=
  do node <-
    match nRaw with
    | sql_relation name relAlias i =>
      match lookupRelation relations name with
      | None =>
        Err (ExecutionError
               (i18n_t "db.messages.translate.error-relation-not-found"
                  [("name", name)])
               (codeInfo i))
      | Some (inheritedMember _) =>
        (* relations[n.name].copy is not a function *)
        Err TypeError
      | Some (relationValue r) =>
        let rel := copy r in
        match relAlias with
        | None => OK rel
        | Some a => OK (RenameRelation rel a newNodeInfo)
        end
      end
    | sql_statement s i =>
      do node <- parseStatement rec s;
      OK (if negb (distinct (select s)) then
            addWarning node (i18n_t "db.messages.translate.warning-distinct-missing" [])
              (codeInfo i)
          else node)
    | sql_renameRelation child newRelAlias _ =>
      do c <- rec child;
      OK (RenameRelation c newRelAlias newNodeInfo)
    | sql_relationFromSubstatement statement relAlias _ =>
      do rel <- rec statement;
      OK (RenameRelation rel relAlias newNodeInfo)
    | sql_join type child child2 cond _ =>
      do condition <- parseJoinCondition cond;
      do c1 <- rec child;
      do c2 <- rec child2;
      OK (match type with
          | innerJoin => InnerJoin c1 c2 condition newNodeInfo
          | leftOuterJoin => LeftOuterJoin c1 c2 condition newNodeInfo
          | rightOuterJoin => RightOuterJoin c1 c2 condition newNodeInfo
          | fullOuterJoin => FullOuterJoin c1 c2 condition newNodeInfo
          end)
    | sql_crossJoin child child2 _ =>
      do c1 <- rec child;
      do c2 <- rec child2;
      OK (CrossJoin c1 c2 newNodeInfo)
    | sql_naturalJoin child child2 _ =>
      do c1 <- rec child;
      do c2 <- rec child2;
      OK (InnerJoin c1 c2 (natural None) newNodeInfo)
    | sql_setOperator type child child2 all i =>
      do c1 <- rec child;
      do c2 <- rec child2;
      let node :=
        match type with
        | union => Union c1 c2 newNodeInfo
        | intersect => Intersect c1 c2 newNodeInfo
        | except => Difference c1 c2 newNodeInfo
        end in
      OK (if all then
            addWarning node
              (i18n_t "db.messages.translate.warning-ignored-all-on-set-operators" [])
              (codeInfo i)
          else node)
    | sql_orderBy child arg _ =>
      do c <- rec child;
      OK (OrderBy c (orderColsOf arg) (orderAscOf arg) newNodeInfo)
    | sql_limit child limit offset _ =>
      if limit =? -1 then
        (* === LIMIT ALL => only offset *)
        do c <- rec child;
        OK (Selection c (conditionOffset offset) newNodeInfo)
      else
        (* limit and offset *)
        do c <- rec child;
        OK (Selection c
              (newValueExprGeneric "boolean" "and"
                 [Nested (conditionOffset offset);
                  Nested (conditionLimit limit offset)])
              newNodeInfo)
    | sql_other type _ =>
      Err (InternalError ("type " ++ type ++ " not implemented"))
    end;
  let node :=
    if wrappedInParentheses (astNodeInfo nRaw) then setWrappedInParentheses node true
    else node in
  setCodeInfoFromNode node (codeInfo (astNodeInfo nRaw)).

(** [relalgFromSQLAstRoot(astRoot, relations)], on [astRoot.child]. *)
Definition relalgFromSQLAstRoot (astRootChild : astNode) : result RANode :=
  rec astRootChild.

End SQL.

(** ** The relational-algebra AST *)

Record tableColumn := mkTableColumn {
  tc_name : string;
  tc_relAlias : option string;
  tc_type : string;
}.

(** An entry of a projection list, by its [type] tag. *)
Inductive relalgProjectionArg : Type :=
| ra_columnName (name : string) (relAlias : option string)
| ra_namedColumnExpr (name : string) (relAlias : option string) (child : valueExpr)
| ra_otherArg (type : string).

Record renameColumnsArg := mkRenameColumnsArg {
  dst : string;
  src : columnName;
}.

(** The node types with two children and no argument. *)
Inductive binaryType : Type :=
| bin_union | bin_intersect | bin_division | bin_difference | bin_crossJoin
| bin_naturalJoin | bin_leftSemiJoin | bin_rightSemiJoin | bin_antiJoin.

Inductive outerJoinType : Type := outer_left | outer_right | outer_full.

Inductive relalgOperation : Type :=
| ra_relation (name : string) (i : astInfo)
| ra_table (name : string) (columns : list tableColumn) (rows : list Row)
    (i : astInfo)
| ra_selection (child : relalgOperation) (arg : valueExpr) (i : astInfo)
| ra_projection (child : relalgOperation) (arg : list relalgProjectionArg)
    (i : astInfo)
| ra_orderBy (child : relalgOperation) (arg : list orderByArg) (i : astInfo)
| ra_groupBy (child : relalgOperation) (group : list columnName)
    (aggregate : list AggregateFunction) (i : astInfo)
| ra_binary (type : binaryType) (child child2 : relalgOperation) (i : astInfo)
| ra_renameColumns (child : relalgOperation) (arg : list renameColumnsArg)
    (i : astInfo)
| ra_renameRelation (child : relalgOperation) (newRelAlias : string) (i : astInfo)
| ra_thetaJoin (child child2 : relalgOperation) (arg : valueExpr) (i : astInfo)
| ra_outerJoin (type : outerJoinType) (child child2 : relalgOperation)
    (arg : joinConditionAst) (i : astInfo).

Definition relalgInfo (n : relalgOperation) : astInfo :=
  match n with
  | ra_relation _ i | ra_table _ _ _ i | ra_selection _ _ i | ra_projection _ _ i
  | ra_orderBy _ _ i | ra_groupBy _ _ _ i | ra_binary _ _ _ i
  | ra_renameColumns _ _ i | ra_renameRelation _ _ i | ra_thetaJoin _ _ _ i
  | ra_outerJoin _ _ _ _ i => i
  end.

(** ** The relational-algebra translator *)

(** The loop of [setAdditionalData] over the keys of [astNode.metaData].
    [astNode.metaData.hasOwnProperty(key)] is looked up on the mapping
    itself: when the mapping has an own key [hasOwnProperty], what is called
    is its value, which is no function, and the first turn of the loop
    throws.  Otherwise every own entry is set on the node. *)
Definition copyMetaData (md : gmap string literal) (node : RANode) : result RANode :=
  if bool_decide (is_Some (md !! "hasOwnProperty")) then Err TypeError
  else OK (map_fold (fun key value n => setMetaData n key value) node md).

(** [setAdditionalData(astNode, node)]: position, own metadata entries,
    parenthesization. *)
Definition setAdditionalData (i : astInfo) (node : RANode) : result RANode :=
  let node := setCodeInfoObject node (codeInfo i) in
  do node <-
    match metaData i with
    | None => OK node
    | Some md => copyMetaData md node
    end;
  OK (if wrappedInParentheses i then setWrappedInParentheses node true else node).

(* the loop of case 'projection' *)
Fixpoint relalgProjectionsOf (arg : list relalgProjectionArg)
  : result (list ProjectionColumn) :=
  match arg with
  | [] => OK []
  | el :: rest =>
    do p <-
      match el with
      | ra_columnName name relAlias => OK (projColumn (mkColumn name relAlias))
      | ra_namedColumnExpr name relAlias child =>
        do e <- recValueExpr child; OK (projExpr name relAlias e)
      | ra_otherArg _ => Err (InternalError "should not happen")
      end;
    do ps <- relalgProjectionsOf rest;
    OK (p :: ps)
  end.

Section Relalg.

Variable relations : gmap string (option RelationObject).

Fixpoint recRANode (n : relalgOperation) : result RANode :=
  match n with
  | ra_relation name i =>
    match lookupRelation relations name with
    | None =>
      Err (ExecutionError
             (i18n_t "db.messages.translate.error-relation-not-found"
                [("name", name)])
             (codeInfo i))
    | Some (inheritedMember _) =>
      (* relations[n.name].copy is not a function *)
      Err TypeError
    | Some (relationValue r) => setAdditionalData i (copy r)
    end
  | ra_table name columns rows i =>
    let schema := map (fun c => mkSchemaColumn (tc_name c) (tc_relAlias c) (tc_type c))
                    columns in
    let rel := Relation name schema rows newNodeInfo in
    let rel := setMetaData rel "isInlineRelation" (LBoolean true) in
    match codeInfo i with
    | None => Err TypeError
    | Some ci =>
      let rel := setMetaData rel "inlineRelationDefinition" (LString (text ci)) in
      setAdditionalData i rel
    end
  | ra_selection child arg i =>
    do c <- recRANode child;
    do condition <- recValueExpr arg;
    setAdditionalData i (Selection c condition newNodeInfo)
  | ra_projection child arg i =>
    do c <- recRANode child;
    do projections <- relalgProjectionsOf arg;
    setAdditionalData i (Projection c projections newNodeInfo)
  | ra_orderBy child arg i =>
    do c <- recRANode child;
    setAdditionalData i (OrderBy c (orderColsOf arg) (orderAscOf arg) newNodeInfo)
  | ra_groupBy child group aggregate i =>
    do c <- recRANode child;
    setAdditionalData i (GroupBy c group aggregate newNodeInfo)
  | ra_binary type child child2 i =>
    do c1 <- recRANode child;
    do c2 <- recRANode child2;
    let node :=
      match type with
      | bin_union => Union c1 c2 newNodeInfo
      | bin_intersect => Intersect c1 c2 newNodeInfo
      | bin_division => Division c1 c2 newNodeInfo
      | bin_difference => Difference c1 c2 newNodeInfo
      | bin_crossJoin => CrossJoin c1 c2 newNodeInfo
      | bin_naturalJoin => InnerJoin c1 c2 (natural None) newNodeInfo
      | bin_leftSemiJoin => SemiJoin c1 c2 true newNodeInfo
      | bin_rightSemiJoin => SemiJoin c1 c2 false newNodeInfo
      | bin_antiJoin => AntiJoin c1 c2 newNodeInfo
      end in
    setAdditionalData i node
  | ra_renameColumns child arg i =>
    do c <- recRANode child;
    let ren :=
      RenameColumns c
        (map (fun e => mkRenaming (dst e) (name (src e)) (relAlias (src e))) arg)
        newNodeInfo in
    setAdditionalData i ren
  | ra_renameRelation child newRelAlias i =>
    do c <- recRANode child;
    setAdditionalData i (RenameRelation c newRelAlias newNodeInfo)
  | ra_thetaJoin child child2 arg i =>
    do e <- recValueExpr arg;
    do c1 <- recRANode child;
    do c2 <- recRANode child2;
    setAdditionalData i (InnerJoin c1 c2 (theta e) newNodeInfo)
  | ra_outerJoin type child child2 arg i =>
    do c1 <- recRANode child;
    do c2 <- recRANode child2;
    do condition <- parseJoinCondition arg;
    let node :=
      match type with
      | outer_left => LeftOuterJoin c1 c2 condition newNodeInfo
      | outer_right => RightOuterJoin c1 c2 condition newNodeInfo
      | outer_full => FullOuterJoin c1 c2 condition newNodeInfo
      end in
    setAdditionalData i node
  end.

Definition relalgFromRelalgAstNode (astNode : relalgOperation) : result RANode :=
  recRANode astNode.

(** [relalgFromRelalgAstRoot(astRoot, relations)], on [astRoot.child]. *)
Definition relalgFromRelalgAstRoot (astRootChild : relalgOperation) : result RANode :=
  relalgFromRelalgAstNode astRootChild.

End Relalg.

(** ** Derived notions used by the statements *)

(** The result of the stages of [parseStatement] that precede the
    projection stage: FROM, WHERE, GROUP BY / aggregation, HAVING. *)
Definition stagesBeforeGroupBy (relations : gmap string (option RelationObject))
  (check : RANode -> result unit) (statement : statement) : result RANode :=
  do root <- parseStatement_from check (rec relations check) statement;
  parseStatement_condition check (where_ statement) root.

Definition stagesBeforeProjection (relations : gmap string (option RelationObject))
  (check : RANode -> result unit) (statement : statement) : result RANode :=
  do root <- stagesBeforeGroupBy relations check statement;
  parseStatement_condition check (having statement)
    (parseStatement_groupBy statement root).

(** [root] is a Projection whose child is [pre]. *)
Definition ProjectionOver (pre root : RANode) : Prop :=
  exists columns info, root = Projection pre columns info.

(** [root] is a RenameColumns whose child is a Projection whose child is
    [pre]. *)
Definition RenameOverProjection (pre root : RANode) : Prop :=
  exists columns pinfo renamings info,
    root = RenameColumns (Projection pre columns pinfo) renamings info.


Fixpoint height (n : RANode) : nat :=
  match n with
  | Relation _ _ _ _ => 0
  | Selection c _ _ | Projection c _ _ | OrderBy c _ _ _ | GroupBy c _ _ _
  | RenameColumns c _ _ | RenameRelation c _ _ => S (height c)
  | CrossJoin a b _ | InnerJoin a b _ _ | LeftOuterJoin a b _ _
  | RightOuterJoin a b _ _ | FullOuterJoin a b _ _ | SemiJoin a b _ _
  | AntiJoin a b _ | Union a b _ | Intersect a b _ | Difference a b _
  | Division a b _ => S (Nat.max (height a) (height b))
  end.

(** The SQL AST node [n] with the metadata mapping of its own position
    record replaced by [md]. *)
Definition withMetaData (md : option (gmap string literal)) (n : astNode) : astNode :=
  let set i := mkAstInfo (codeInfo i) (wrappedInParentheses i) md in
  match n with
  | sql_relation a b i => sql_relation a b (set i)
  | sql_statement s i => sql_statement s (set i)
  | sql_renameRelation a b i => sql_renameRelation a b (set i)
  | sql_relationFromSubstatement a b i => sql_relationFromSubstatement a b (set i)
  | sql_join a b c d i => sql_join a b c d (set i)
  | sql_crossJoin a b i => sql_crossJoin a b (set i)
  | sql_naturalJoin a b i => sql_naturalJoin a b (set i)
  | sql_setOperator a b c d i => sql_setOperator a b c d (set i)
  | sql_orderBy a b i => sql_orderBy a b (set i)
  | sql_limit a b c i => sql_limit a b c (set i)
  | sql_other a i => sql_other a (set i)
  end.

(** Induction on the SQL AST that also descends into the FROM clause of a
    statement. *)
Section astNode_induction.

Variable P : astNode -> Prop.
Hypothesis P_relation : forall name relAlias i, P (sql_relation name relAlias i).
Hypothesis P_statement : forall s i, P (from s) -> P (sql_statement s i).
Hypothesis P_renameRelation :
  forall child a i, P child -> P (sql_renameRelation child a i).
Hypothesis P_relationFromSubstatement :
  forall st a i, P st -> P (sql_relationFromSubstatement st a i).
Hypothesis P_join :
  forall ty c1 c2 cond i, P c1 -> P c2 -> P (sql_join ty c1 c2 cond i).
Hypothesis P_crossJoin : forall c1 c2 i, P c1 -> P c2 -> P (sql_crossJoin c1 c2 i).
Hypothesis P_naturalJoin : forall c1 c2 i, P c1 -> P c2 -> P (sql_naturalJoin c1 c2 i).
Hypothesis P_setOperator :
  forall ty c1 c2 all i, P c1 -> P c2 -> P (sql_setOperator ty c1 c2 all i).
Hypothesis P_orderBy : forall child arg i, P child -> P (sql_orderBy child arg i).
Hypothesis P_limit : forall child l o i, P child -> P (sql_limit child l o i).
Hypothesis P_other : forall ty i, P (sql_other ty i).

Fixpoint astNode_from_ind (n : astNode) : P n :=
  match n with
  | sql_relation name relAlias i => P_relation name relAlias i
  | sql_statement s i => P_statement s i (astNode_from_ind (from s))
  | sql_renameRelation c a i => P_renameRelation c a i (astNode_from_ind c)
  | sql_relationFromSubstatement st a i =>
    P_relationFromSubstatement st a i (astNode_from_ind st)
  | sql_join ty c1 c2 cond i =>
    P_join ty c1 c2 cond i (astNode_from_ind c1) (astNode_from_ind c2)
  | sql_crossJoin c1 c2 i => P_crossJoin c1 c2 i (astNode_from_ind c1) (astNode_from_ind c2)
  | sql_naturalJoin c1 c2 i =>
    P_naturalJoin c1 c2 i (astNode_from_ind c1) (astNode_from_ind c2)
  | sql_setOperator ty c1 c2 all i =>
    P_setOperator ty c1 c2 all i (astNode_from_ind c1) (astNode_from_ind c2)
  | sql_orderBy c arg i => P_orderBy c arg i (astNode_from_ind c)
  | sql_limit c l o i => P_limit c l o i (astNode_from_ind c)
  | sql_other ty i => P_other ty i
  end.

End astNode_induction.

(** The SQL AST [n] contains a reference to the relation [name]. *)
Fixpoint referencesRelation (name : string) (n : astNode) : Prop :=
  match n with
  | sql_relation name' _ _ => name' = name
  | sql_statement s _ => referencesRelation name (from s)
  | sql_renameRelation c _ _ | sql_relationFromSubstatement c _ _
  | sql_orderBy c _ _ | sql_limit c _ _ _ => referencesRelation name c
  | sql_join _ c1 c2 _ _ | sql_crossJoin c1 c2 _ | sql_naturalJoin c1 c2 _
  | sql_setOperator _ c1 c2 _ _ =>
    referencesRelation name c1 \/ referencesRelation name c2
  | sql_other _ _ => False
  end.

(** Every node of the RA AST carries a source position. *)
Fixpoint relalgPositioned (n : relalgOperation) : bool :=
  match codeInfo (relalgInfo n) with Some _ => true | None => false end &&
  match n with
  | ra_relation _ _ | ra_table _ _ _ _ => true
  | ra_selection c _ _ | ra_projection c _ _ | ra_orderBy c _ _ | ra_groupBy c _ _ _
  | ra_renameColumns c _ _ | ra_renameRelation c _ _ => relalgPositioned c
  | ra_binary _ c1 c2 _ | ra_thetaJoin c1 c2 _ _ | ra_outerJoin _ c1 c2 _ _ =>
    relalgPositioned c1 && relalgPositioned c2
  end.

(** ** Concrete inputs *)

Definition ci0 : CodeInfo := mkCodeInfo (mkPosition 0 1 1) (mkPosition 9 1 10) "R".
Definition ci1 : CodeInfo :=
  mkCodeInfo (mkPosition 0 1 1) (mkPosition 40 1 41) "select".
Definition ci2 : CodeInfo :=
  mkCodeInfo (mkPosition 7 1 8) (mkPosition 20 1 21) "list".

Definition info0 : astInfo := mkAstInfo (Some ci0) false None.
Definition info1 : astInfo := mkAstInfo (Some ci1) false None.

(** A relation [R(a, b, c)] with two rows. *)
Definition relR : RelationObject :=
  mkRelationObject "R"
    [mkSchemaColumn "a" (Some "R") "number"; mkSchemaColumn "b" (Some "R") "number";
     mkSchemaColumn "c" (Some "R") "string"]
    [[LNumber 1; LNumber 2; LString "x"]; [LNumber 3; LNumber 4; LString "y"]]
    newNodeInfo.

Definition catalogR : gmap string (option RelationObject) := {[ "R" := Some relR ]}.

(** A catalog in which [toString] is a key bound to [undefined]. *)
Definition catalogToString : gmap string (option RelationObject) :=
  <[ "toString" := None ]> catalogR.

(** An AST position whose metadata mapping has an own key [hasOwnProperty]. *)
Definition infoShadowing : astInfo :=
  mkAstInfo (Some ci0) false (Some {[ "hasOwnProperty" := LBoolean true ]}).

(** A catalog in which [ghost] is a key bound to [undefined]. *)
Definition catalogUndefined : gmap string (option RelationObject) :=
  <[ "ghost" := None ]> catalogR.

(** A self-check that accepts every tree. *)
Definition checkPasses (n : RANode) : result unit := OK tt.

Definition fromR : astNode := sql_relation "R" None info0.

(** [SELECT a AS x, b FROM R] *)
Definition selectAliased : statement :=
  mkStatement
    (mkSelectClause false
       [sel_column "a" None (Some "x"); sel_column "b" None None] (Some ci2))
    fromR None None None 0.


(** [SELECT a AS '' , b FROM R]: the alias is the empty string *)
Definition selectEmptyAlias : statement :=
  mkStatement
    (mkSelectClause false
       [sel_column "a" None (Some ""); sel_column "b" None None] (Some ci2))
    fromR None None None 0.

(** [SELECT DISTINCT * FROM R] *)
Definition selectStar : statement :=
  mkStatement (mkSelectClause true [sel_column "*" None None] (Some ci2))
    fromR None None None 0.

(** [SELECT COUNT( * ) AS n FROM R GROUP BY c] *)
Definition selectCount : statement :=
  mkStatement
    (mkSelectClause true
       [sel_aggFunction (mkAggregateFunction "COUNT_ALL" None "n")] (Some ci2))
    fromR None (Some [mkColumnName "c" None]) None 1.

(** [SELECT c FROM R GROUP BY c] *)
Definition selectGroupOnly : statement :=
  mkStatement
    (mkSelectClause true [sel_column "c" None None] (Some ci2))
    fromR None (Some [mkColumnName "c" None]) None 0.

(** An AST position that declares the metadata entry [note = 'x']. *)
Definition infoWithMetaData : astInfo :=
  mkAstInfo (Some ci0) false (Some {[ "note" := LString "x" ]}).

Definition relationNotFound (name : string) (ci : option CodeInfo) : TranslateError :=
  ExecutionError (mkMessage "db.messages.translate.error-relation-not-found"
                    [("name", name)]) ci.

Definition distinctMissing (ci : option CodeInfo) : Warning :=
  mkWarning (mkMessage "db.messages.translate.warning-distinct-missing" []) ci.

(** ** Further derived notions *)

(** Induction on an expression AST that also descends into the arguments
    that are expressions. *)
Section valueExpr_induction.

Variable P : valueExpr -> Prop.
Hypothesis P_node :
  forall datatype func args ci w,
    Forall (fun a => match a with argExpr e => P e | argLiteral _ => True end) args ->
    P (mkValueExpr datatype func args ci w).

Fixpoint valueExpr_nested_ind (n : valueExpr) : P n :=
  match n with
  | mkValueExpr datatype func args ci w =>
    P_node datatype func args ci w
      ((fix go (l : list valueExprArg)
          : Forall (fun a => match a with argExpr e => P e | argLiteral _ => True end) l :=
          match l with
          | [] => List.Forall_nil _
          | a :: rest =>
            @List.Forall_cons _ _ a rest
              (match a return
                 match a with argExpr e => P e | argLiteral _ => True end with
               | argExpr e => valueExpr_nested_ind e
               | argLiteral _ => I
               end)
              (go rest)
          end) args)
  end.

End valueExpr_induction.

(** The loop of [recValueExpr] over [n.args], for the function [func]. *)
Definition recValueExprArgs (func : string)
  : list valueExprArg -> result (list ValueExprArg) :=
  fix loop (l : list valueExprArg) : result (list ValueExprArg) :=
    match l with
    | [] => OK []
    | a :: rest =>
      do x <-
        (if String.eqb func "constant" then OK (Verbatim a)
         else
           match a with
           | argExpr e => do e' <- recValueExpr e; OK (Nested e')
           | argLiteral LNull =>
             Err TypeError
           | argLiteral _ => Err (InternalError "not implemented yet")
           end);
      do xs <- loop rest;
      OK (x :: xs)
    end.

(** The expressions [recValueExpr] can translate: a column reference; or a
    node of one of the five datatypes that is a constant or whose arguments
    are all expressions of that kind. *)
Fixpoint exprTranslatable (n : valueExpr) : bool :=
  match n with
  | mkValueExpr datatype func args _ _ =>
    (String.eqb datatype "null" && String.eqb func "columnValue")
    || (implementedDatatype datatype
        && (String.eqb func "constant"
            || forallb (fun a => match a with
                                 | argExpr e => exprTranslatable e
                                 | argLiteral _ => false
                                 end) args))
  end.

(** The position and the parenthesization flag of an expression node. *)
Definition exprCodeInfo (e : ValueExpr) : option CodeInfo :=
  match e with
  | ValueExprColumnValue _ _ ci _ | ValueExprGeneric _ _ _ ci _ => ci
  end.

Definition exprWrapped (e : ValueExpr) : bool :=
  match e with
  | ValueExprColumnValue _ _ _ w | ValueExprGeneric _ _ _ _ w => w
  end.

(** [a.b > 3] as an expression AST, and an expression of a datatype that is
    not implemented. *)
Definition exprColumnAB : valueExpr :=
  mkValueExpr "null" "columnValue"
    [argLiteral (LString "a"); argLiteral (LString "b")] (Some ci2) false.

Definition exprThree : valueExpr :=
  mkValueExpr "number" "constant" [argLiteral (LNumber 3)] (Some ci2) false.

Definition exprGreater : valueExpr :=
  mkValueExpr "boolean" ">" [argExpr exprColumnAB; argExpr exprThree] (Some ci1) true.

Definition exprBlob : valueExpr :=
  mkValueExpr "blob" "constant" [argLiteral (LNumber 3)] (Some ci2) false.

(** The shape of a tree: the arity of every node. *)
Inductive shape : Type :=
| leaf
| unary (s : shape)
| binary (s1 s2 : shape).

Fixpoint shapeOfNode (n : RANode) : shape :=
  match n with
  | Relation _ _ _ _ => leaf
  | Selection c _ _ | Projection c _ _ | OrderBy c _ _ _ | GroupBy c _ _ _
  | RenameColumns c _ _ | RenameRelation c _ _ => unary (shapeOfNode c)
  | CrossJoin a b _ | InnerJoin a b _ _ | LeftOuterJoin a b _ _
  | RightOuterJoin a b _ _ | FullOuterJoin a b _ _ | SemiJoin a b _ _
  | AntiJoin a b _ | Union a b _ | Intersect a b _ | Difference a b _
  | Division a b _ => binary (shapeOfNode a) (shapeOfNode b)
  end.

Fixpoint shapeOfRelalg (n : relalgOperation) : shape :=
  match n with
  | ra_relation _ _ | ra_table _ _ _ _ => leaf
  | ra_selection c _ _ | ra_projection c _ _ | ra_orderBy c _ _ | ra_groupBy c _ _ _
  | ra_renameColumns c _ _ | ra_renameRelation c _ _ => unary (shapeOfRelalg c)
  | ra_binary _ c1 c2 _ | ra_thetaJoin c1 c2 _ _ | ra_outerJoin _ c1 c2 _ _ =>
    binary (shapeOfRelalg c1) (shapeOfRelalg c2)
  end.

(** The RA AST [n] contains a reference to the relation [name]. *)
Fixpoint relalgReferences (name : string) (n : relalgOperation) : Prop :=
  match n with
  | ra_relation name' _ => name' = name
  | ra_table _ _ _ _ => False
  | ra_selection c _ _ | ra_projection c _ _ | ra_orderBy c _ _ | ra_groupBy c _ _ _
  | ra_renameColumns c _ _ | ra_renameRelation c _ _ => relalgReferences name c
  | ra_binary _ c1 c2 _ | ra_thetaJoin c1 c2 _ _ | ra_outerJoin _ c1 c2 _ _ =>
    relalgReferences name c1 \/ relalgReferences name c2
  end.

(** [sigma a.b > 3 (R)], [R natural join ghost] and an inline table, in
    the RA syntax. *)
Definition relalgR : relalgOperation := ra_relation "R" info0.

Definition relalgSelection : relalgOperation :=
  ra_selection relalgR exprGreater info1.

Definition relalgJoinGhost : relalgOperation :=
  ra_binary bin_naturalJoin relalgR (ra_relation "ghost" info0) info1.

(** [R JOIN ghost] in the SQL syntax. *)
Definition sqlJoinGhost : astNode :=
  sql_naturalJoin fromR (sql_relation "ghost" None info0) info1.

(** An entry of the SELECT list the projection stage can process: any
    aggregate function or plain column, a named expression whose expression
    translates, and no entry of another type. *)
Definition entryProjectable (arg : projectionArg) : bool :=
  match arg with
  | sel_aggFunction _ | sel_column _ _ _ => true
  | sel_namedColumnExpr _ _ child => isOK (recValueExpr child)
  | sel_other _ => false
  end.

(** What a node of a tree translated from SQL can be: a relation of the
    catalog, with its name, schema and rows, or one of the operators the SQL
    translator builds. *)
Definition sqlTreeNode (relations : gmap string (option RelationObject))
  (x : RANode) : Prop :=
  match x with
  | Relation nm sch rows _ =>
    exists key obj,
      lookupRelation relations key = Some (relationValue obj) /\
      nm = rel_name obj /\ sch = rel_schema obj /\ rows = rel_rows obj
  | SemiJoin _ _ _ _ | AntiJoin _ _ _ | Division _ _ _ => False
  | _ => True
  end.

Definition ignoredAll (ci : option CodeInfo) : Warning :=
  mkWarning
    (mkMessage "db.messages.translate.warning-ignored-all-on-set-operators" []) ci.

(** A self-check that rejects every tree. *)
Definition schemaConflict : TranslateError :=
  ExecutionError (mkMessage "db.messages.exec.error-schema-conflict" []) None.

Definition checkRejects (n : RANode) : result unit := Err schemaConflict.

Definition whereClause : conditionClause := mkConditionClause exprGreater (Some ci1).
Definition havingClause : conditionClause := mkConditionClause exprGreater (Some ci2).

(** [SELECT DISTINCT COUNT( * ) AS n FROM R WHERE (a.b > 3) GROUP BY c
    HAVING (a.b > 3)] *)
Definition selectFull : statement :=
  mkStatement
    (mkSelectClause true
       [sel_aggFunction (mkAggregateFunction "COUNT_ALL" None "n")] (Some ci2))
    fromR (Some whereClause) (Some [mkColumnName "c" None]) (Some havingClause) 1.

(** [R UNION R], and [R ORDER BY a ASC, b DESC] *)
Definition sqlUnion (all : bool) : astNode :=
  sql_setOperator union fromR fromR all info1.

Definition sqlOrderBy : astNode :=
  sql_orderBy fromR
    [mkOrderByArg true (mkColumnName "a" None);
     mkOrderByArg false (mkColumnName "b" (Some "R"))] info1.

(** The translation of [a.b > 3], and the tree of [selectFull]. *)
Definition condGreater : ValueExpr :=
  ValueExprGeneric "boolean" ">"
    [Nested (ValueExprColumnValue (Some (argLiteral (LString "a")))
               (Some (argLiteral (LString "b"))) (Some ci2) false);
     Nested (ValueExprGeneric "number" "constant"
               [Verbatim (argLiteral (LNumber 3))] (Some ci2) false)]
    (Some ci1) true.

Definition treeOfSelectFull : RANode :=
  Projection
    (Selection
       (GroupBy
          (Selection (setCodeInfoObject (copy relR) (Some ci0)) condGreater
             (mkNodeInfo (Some ci1) ∅ [] false))
          [mkColumnName "c" None] [mkAggregateFunction "COUNT_ALL" None "n"]
          newNodeInfo)
       condGreater (mkNodeInfo (Some ci2) ∅ [] false))
    [projColumn (mkColumn "n" None)]
    (mkNodeInfo (Some ci2) ∅ [] false).

(** An entry of an RA projection list the translator can process. *)
Definition relalgEntryProjectable (el : relalgProjectionArg) : bool :=
  match el with
  | ra_columnName _ _ => true
  | ra_namedColumnExpr _ _ child => exprTranslatable child
  | ra_otherArg _ => false
  end.

(** The metadata mapping of the AST node can be copied: it has no own key
    [hasOwnProperty]. *)
Definition metaDataCopyable (i : astInfo) : bool :=
  match metaData i with
  | Some md => negb (bool_decide (is_Some (md !! "hasOwnProperty")))
  | None => true
  end.

(** The RA ASTs [recRANode] can translate against a catalog: every name
    referred to is bound to a relation, every inline table has a position,
    every expression is translatable, every projection entry is a column or
    a named expression, and the metadata of every node can be copied. *)
Fixpoint relalgTranslatable (relations : gmap string (option RelationObject))
  (n : relalgOperation) : bool :=
  metaDataCopyable (relalgInfo n) &&
  match n with
  | ra_relation name _ =>
    match lookupRelation relations name with
    | Some (relationValue _) => true
    | _ => false
    end
  | ra_table _ _ _ i =>
    match codeInfo i with Some _ => true | None => false end
  | ra_selection c arg _ => relalgTranslatable relations c && exprTranslatable arg
  | ra_projection c arg _ =>
    relalgTranslatable relations c && forallb relalgEntryProjectable arg
  | ra_orderBy c _ _ | ra_groupBy c _ _ _ | ra_renameColumns c _ _
  | ra_renameRelation c _ _ => relalgTranslatable relations c
  | ra_binary _ c1 c2 _ =>
    relalgTranslatable relations c1 && relalgTranslatable relations c2
  | ra_thetaJoin c1 c2 arg _ =>
    exprTranslatable arg
    && relalgTranslatable relations c1 && relalgTranslatable relations c2
  | ra_outerJoin _ c1 c2 arg _ =>
    relalgTranslatable relations c1 && relalgTranslatable relations c2
    && match arg with condExpr e => exprTranslatable e | _ => true end
  end.

(** [pi a, x <- a.b > 3 (R)] in the RA syntax. *)
Definition relalgProjection : relalgOperation :=
  ra_projection relalgR
    [ra_columnName "a" None; ra_namedColumnExpr "x" None exprGreater] info1.

(** ** General lemmas *)

Lemma bind_OK {A B : Type} (m : result A) (k : A -> result B) (b : B) :
  bind m k = OK b -> exists a, m = OK a /\ k a = OK b.
Proof.
  destruct m as [a|e]; simpl; intros H; [eauto | discriminate].
Qed.

Lemma setCodeInfoFromNode_OK (n r : RANode) (ci : option CodeInfo) :
  setCodeInfoFromNode n ci = OK r ->
  exists c, ci = Some c /\ r = setCodeInfoObject n (Some c).
Proof.
  destruct ci as [c|]; simpl; intros H; [|discriminate].
  injection H as <-. eauto.
Qed.

Ltac inv_bind H :=
  let a := fresh "r" in
  let H1 := fresh "E" in
  apply bind_OK in H; destruct H as (a & H1 & H).

(** * The LIMIT/OFFSET lowering *)

Lemma roundToDouble_exact (z : Z) : Z.abs z <= 2 ^ 53 -> roundToDouble z = z.
Proof.
  intros Hz. unfold roundToDouble. destruct (Z.abs z <? 2 ^ 53) eqn:Hlt; [reflexivity|].
  apply Z.ltb_ge in Hlt. assert (Ha : Z.abs z = 2 ^ 53) by lia.
  rewrite Ha. change (Z.log2 (2 ^ 53) - 52) with 1.
  change (2 ^ 53 / 2 ^ 1) with (2 ^ 52). change (2 ^ 53 mod 2 ^ 1) with 0.
  change (0 <? 2 ^ (1 - 1)) with true. cbv beta iota zeta.
  change (2 ^ 52 * 2 ^ 1) with (2 ^ 53). rewrite <- Ha, Z.mul_comm. apply Z.abs_sgn.
Qed.

(** On integers whose sum is a safe integer the sum of the source is the
    exact one. *)
Lemma numberAdd_exact (a b : Z) :
  Z.abs (a + b) <= 2 ^ 53 -> numberAdd a b = LNumber (a + b).
Proof.
  intros H. unfold numberAdd. rewrite (roundToDouble_exact _ H).
  destruct (2 ^ 1024 <=? Z.abs (a + b)) eqn:Hov; [|reflexivity].
  apply Z.leb_le in Hov. assert (2 ^ 53 < 2 ^ 1024) by (apply Z.pow_lt_mono_r; lia).
  lia.
Qed.

(** C1: a ['limit'] node whose child translates to [c] is translated to a
    Selection over [c]; its condition is [rownum > offset] alone when the
    limit is [-1] (LIMIT ALL), and otherwise the conjunction of
    [rownum > offset] and [rownum <= limit + offset], where the sum is the
    sum of the two numbers as the source computes it; for a limit and an
    offset that are safe integers with a safe sum it is the exact sum. *)
Theorem C1_limit_is_selection_on_rownum
  (relations : gmap string (option RelationObject)) (check : RANode -> result unit)
  (child : astNode) (limit offset : Z) (i : astInfo) (c : RANode) (ci : CodeInfo) :
  rec relations check child = OK c ->
  codeInfo i = Some ci ->
  let rownum := ValueExprGeneric "number" "rownum" [] None false in
  let constant v :=
    ValueExprGeneric "number" "constant" [Verbatim (argLiteral v)] None false in
  let lower :=
    ValueExprGeneric "boolean" ">" [Nested rownum; Nested (constant (LNumber offset))]
      None false in
  let upper :=
    ValueExprGeneric "boolean" "<="
      [Nested rownum; Nested (constant (numberAdd limit offset))] None false in
  rec relations check (sql_limit child limit offset i) =
    OK (Selection c
          (if limit =? -1 then lower
           else ValueExprGeneric "boolean" "and" [Nested lower; Nested upper] None false)
          (mkNodeInfo (Some ci) ∅ [] (wrappedInParentheses i))) /\
  (Z.abs limit <= 2 ^ 53 -> Z.abs offset <= 2 ^ 53 -> Z.abs (limit + offset) <= 2 ^ 53 ->
   numberAdd limit offset = LNumber (limit + offset)).
Proof.
  intros Hc Hi. simpl. split.
  - rewrite Hc, Hi.
    destruct (limit =? -1); simpl; destruct (wrappedInParentheses i); reflexivity.
  - intros _ _ Hs. now apply numberAdd_exact.
Qed.

(** [LIMIT 10 OFFSET 5] over [R]. *)
Lemma C1_limit_10_offset_5 :
  rec catalogR checkPasses (sql_limit fromR 10 5 info1) =
    OK (Selection (setCodeInfoObject (copy relR) (Some ci0))
          (ValueExprGeneric "boolean" "and"
             [Nested (ValueExprGeneric "boolean" ">"
                        [Nested (ValueExprGeneric "number" "rownum" [] None false);
                         Nested (ValueExprGeneric "number" "constant"
                                   [Verbatim (argLiteral (LNumber 5))] None false)]
                        None false);
              Nested (ValueExprGeneric "boolean" "<="
                        [Nested (ValueExprGeneric "number" "rownum" [] None false);
                         Nested (ValueExprGeneric "number" "constant"
                                   [Verbatim (argLiteral (numberAdd 10 5))] None false)]
                        None false)]
             None false)
          (mkNodeInfo (Some ci1) ∅ [] false)) /\
  (Z.abs 10 <= 2 ^ 53 -> Z.abs 5 <= 2 ^ 53 -> Z.abs (10 + 5) <= 2 ^ 53 ->
   numberAdd 10 5 = LNumber (10 + 5)).
Proof.
  apply (C1_limit_is_selection_on_rownum catalogR checkPasses fromR 10 5 info1
           (setCodeInfoObject (copy relR) (Some ci0)) ci1); reflexivity.
Defined.

(** [LIMIT ALL OFFSET 5] over [R]: the lower bound alone. *)
Lemma limit_all_offset_5 :
  rec catalogR checkPasses (sql_limit fromR (-1) 5 info1) =
  OK (Selection (setCodeInfoObject (copy relR) (Some ci0))
        (ValueExprGeneric "boolean" ">"
           [Nested (ValueExprGeneric "number" "rownum" [] None false);
            Nested (ValueExprGeneric "number" "constant"
                      [Verbatim (argLiteral (LNumber 5))] None false)]
           None false)
        (mkNodeInfo (Some ci1) ∅ [] false)).
Proof. reflexivity. Qed.

(** Beyond the safe integers the sum is rounded: [LIMIT 9007199254740992
    OFFSET 1] has the upper bound [9007199254740992]. *)
Lemma numberAdd_rounds_beyond_safe_integers :
  numberAdd (2 ^ 53) 1 = LNumber (2 ^ 53) /\
  numberAdd (2 ^ 53) 3 = LNumber (2 ^ 53 + 4).
Proof. split; reflexivity. Qed.

(** * The statement pipeline *)

Lemma parseStatement_stages (relations : gmap string (option RelationObject))
  (check : RANode -> result unit) (s : statement) :
  parseStatement check (rec relations check) s =
  do pre <- stagesBeforeProjection relations check s;
  do rc <- parseStatement_projection s pre;
  OK (parseStatement_rename s (fst rc) (snd rc)).
Proof.
  unfold parseStatement, stagesBeforeProjection, stagesBeforeGroupBy.
  destruct (parseStatement_from check (rec relations check) s) as [r|e]; simpl;
    [|reflexivity].
  destruct (parseStatement_condition check (where_ s) r); reflexivity.
Qed.

Lemma isBareWildcard_true (args : list projectionArg) :
  isBareWildcard args = true <-> exists alias, args = [sel_column "*" None alias].
Proof.
  split.
  - destruct args as [|[a|n r c|n [r|] al|ty] [|? ?]]; simpl; try discriminate.
    intros H. apply String.eqb_eq in H. subst n. eauto.
  - intros [alias ->]. reflexivity.
Qed.

Lemma isBareWildcard_false (args : list projectionArg) :
  isBareWildcard args = false <-> ~ exists alias, args = [sel_column "*" None alias].
Proof.
  rewrite <- isBareWildcard_true. destruct (isBareWildcard args); split; intros H;
    try reflexivity; try discriminate; try (intros ?; discriminate).
  exfalso. apply H. reflexivity.
Qed.

Lemma projectionsOf_colsRenamed (args : list projectionArg)
  (ps : list ProjectionColumn) (b : bool) :
  projectionsOf args = OK (ps, b) -> b = existsb isNamedColumn args.
Proof.
  revert ps b. induction args as [|c rest IH]; intros ps b H; simpl in H.
  - injection H as _ <-. reflexivity.
  - inv_bind H. inv_bind H. destruct r0 as [ps' b'].
    injection H as _ <-. simpl. rewrite <- (IH ps' b' E0).
    destruct c as [a|nm ra ch|nm ra al|ty]; simpl in E.
    + injection E as <-. reflexivity.
    + inv_bind E. injection E as <-. reflexivity.
    + injection E as <-. reflexivity.
    + discriminate.
Qed.



(** What the projection and the rename stage make of the root [pre] they
    are given. *)
Lemma projection_rename_cases (s : statement) (pre root : RANode) :
  (do rc <- parseStatement_projection s pre;
   OK (parseStatement_rename s (fst rc) (snd rc))) = OK root ->
  let args := sel_arg (select s) in
  (isBareWildcard args = true /\ root = pre) \/
  (isBareWildcard args = false /\ existsb isNamedColumn args = false /\
   exists columns ci,
     sel_codeInfo (select s) = Some ci /\
     root = Projection pre columns (mkNodeInfo (Some ci) ∅ [] false)) \/
  (isBareWildcard args = false /\ existsb isNamedColumn args = true /\
   exists columns ci,
     sel_codeInfo (select s) = Some ci /\
     root = RenameColumns (Projection pre columns (mkNodeInfo (Some ci) ∅ [] false))
              (renamingsOf args) newNodeInfo).
Proof.
  intros H args. inv_bind H. unfold parseStatement_projection in E.
  fold args in E. destruct (isBareWildcard args) eqn:Hw.
  - injection E as <-. simpl in H. injection H as <-. left. auto.
  - right. inv_bind E. inv_bind E. destruct r0 as [ps b]. simpl in *.
    apply projectionsOf_colsRenamed in E0 as Hb.
    apply setCodeInfoFromNode_OK in E1 as (ci & Hci & ->).
    injection E as <-. simpl in H. injection H as <-.
    unfold parseStatement_rename. fold args. rewrite Hb.
    destruct (existsb isNamedColumn args).
    + right. repeat split; trivial. exists ps, ci. split; trivial.
    + left. repeat split; trivial. exists ps, ci. split; trivial.
Qed.

(** C2: the projection stage adds a Projection layer on the root left by the
    preceding stages exactly when the SELECT list is not the single plain
    column [*] without relation qualifier; for that list the root of the
    statement is the root left by the preceding stages. *)
Theorem C2_projection_iff_not_bare_wildcard
  (relations : gmap string (option RelationObject)) (check : RANode -> result unit)
  (s : statement) (root : RANode) :
  parseStatement check (rec relations check) s = OK root ->
  exists pre,
    stagesBeforeProjection relations check s = OK pre /\
    (ProjectionOver pre root \/ RenameOverProjection pre root <->
     ~ exists alias, sel_arg (select s) = [sel_column "*" None alias]) /\
    ((exists alias, sel_arg (select s) = [sel_column "*" None alias]) -> root = pre).
Proof.
  intros H. rewrite parseStatement_stages in H. inv_bind H. rename r into pre.
  exists pre. split; [exact E|].
  apply projection_rename_cases in H. simpl in H.
  rewrite <- isBareWildcard_false, <- isBareWildcard_true.
  destruct H as [[Hw ->] | [(Hw & _ & cols & ci & _ & ->) | (Hw & _ & cols & ci & _ & ->)]].
  - split; [|reflexivity]. rewrite Hw. split; [|discriminate].
    intros [(cols & info & Heq) | (cols & pinfo & rens & info & Heq)]; exfalso.
    + apply (f_equal height) in Heq. simpl in Heq. lia.
    + apply (f_equal height) in Heq. simpl in Heq. lia.
  - rewrite Hw. split; [|discriminate]. split; [reflexivity|].
    intros _. left. eexists _, _. reflexivity.
  - rewrite Hw. split; [|discriminate]. split; [reflexivity|].
    intros _. right. eexists _, _, _, _. reflexivity.
Qed.

(** [SELECT a AS x, b FROM R] gets a Projection, [SELECT DISTINCT * FROM R]
    is the translated FROM clause. *)
Lemma C2_select_star_and_select_columns :
  (exists pre,
     stagesBeforeProjection catalogR checkPasses selectAliased = OK pre /\
     (ProjectionOver pre
        (RenameColumns
           (Projection (setCodeInfoObject (copy relR) (Some ci0))
              [projColumn (mkColumn "a" None); projColumn (mkColumn "b" None)]
              (mkNodeInfo (Some ci2) ∅ [] false))
           [mkRenaming "x" "a" None] newNodeInfo) \/
      RenameOverProjection pre
        (RenameColumns
           (Projection (setCodeInfoObject (copy relR) (Some ci0))
              [projColumn (mkColumn "a" None); projColumn (mkColumn "b" None)]
              (mkNodeInfo (Some ci2) ∅ [] false))
           [mkRenaming "x" "a" None] newNodeInfo) <->
      ~ exists alias, sel_arg (select selectAliased) = [sel_column "*" None alias]) /\
     ((exists alias, sel_arg (select selectAliased) = [sel_column "*" None alias]) ->
      RenameColumns
        (Projection (setCodeInfoObject (copy relR) (Some ci0))
           [projColumn (mkColumn "a" None); projColumn (mkColumn "b" None)]
           (mkNodeInfo (Some ci2) ∅ [] false))
        [mkRenaming "x" "a" None] newNodeInfo = pre)) /\
  parseStatement checkPasses (rec catalogR checkPasses) selectStar =
  OK (setCodeInfoObject (copy relR) (Some ci0)).
Proof.
  split; [|reflexivity].
  apply (C2_projection_iff_not_bare_wildcard catalogR checkPasses selectAliased).
  reflexivity.
Defined.

(** * Grouping and aggregation *)

Lemma aggregateFunctionsOf_elem (args : list projectionArg) (a : AggregateFunction) :
  a ∈ aggregateFunctionsOf args <-> sel_aggFunction a ∈ args.
Proof.
  induction args as [|arg rest IH]; simpl.
  - split; intros H; now apply elem_of_nil in H.
  - destruct arg as [a'|nm ra ch|nm ra al|ty]; rewrite ?elem_of_cons, IH.
    + split; (intros [H|H]; [left; congruence | right; exact H]).
    + split; [intros H; right; exact H | intros [H|H]; [discriminate | exact H]].
    + split; [intros H; right; exact H | intros [H|H]; [discriminate | exact H]].
    + split; [intros H; right; exact H | intros [H|H]; [discriminate | exact H]].
Qed.

Lemma aggregateFunctionsOf_nonempty (args : list projectionArg) :
  (0 <? length (aggregateFunctionsOf args))%nat = true <->
  exists a, sel_aggFunction a ∈ args.
Proof.
  rewrite Nat.ltb_lt. split.
  - destruct (aggregateFunctionsOf args) as [|a l] eqn:E; simpl; [lia|].
    intros _. exists a. apply aggregateFunctionsOf_elem. rewrite E. left.
  - intros [a Ha]. apply aggregateFunctionsOf_elem in Ha.
    destruct (aggregateFunctionsOf args); simpl; [now apply elem_of_nil in Ha | lia].
Qed.

Lemma parseStatement_groupBy_guarded (s : statement) (root : RANode) :
  groupBy s <> None \/ 0 < numAggregationColumns s ->
  parseStatement_groupBy s root =
  if (0 <? length (aggregateFunctionsOf (sel_arg (select s))))%nat then
    GroupBy root (default [] (groupBy s)) (aggregateFunctionsOf (sel_arg (select s)))
      newNodeInfo
  else
    Projection root
      (map (fun c => projColumn (mkColumn (name c) (relAlias c)))
         (default [] (groupBy s))) newNodeInfo.
Proof.
  intros Hguard. unfold parseStatement_groupBy.
  assert (Hg : bool_decide (groupBy s <> None) || (0 <? numAggregationColumns s) = true).
  { destruct Hguard as [H|H].
    - rewrite bool_decide_eq_true_2 by exact H. reflexivity.
    - apply Z.ltb_lt in H. rewrite H. apply orb_true_r. }
  rewrite Hg. reflexivity.
Qed.

Lemma parseStatement_groupBy_aggregate (s : statement) (root : RANode) :
  groupBy s <> None \/ 0 < numAggregationColumns s ->
  (exists a, sel_aggFunction a ∈ sel_arg (select s)) ->
  parseStatement_groupBy s root =
  GroupBy root (default [] (groupBy s)) (aggregateFunctionsOf (sel_arg (select s)))
    newNodeInfo.
Proof.
  intros Hguard Hagg. rewrite (parseStatement_groupBy_guarded s root Hguard).
  apply aggregateFunctionsOf_nonempty in Hagg. rewrite Hagg. reflexivity.
Qed.

Lemma height_nodes (n x : RANode) : x ∈ nodes n -> (height x <= height n)%nat.
Proof.
  induction n; simpl; intros H; apply elem_of_cons in H as [->|H];
    try (simpl; lia); try (now apply elem_of_nil in H);
    try (specialize (IHn H); lia);
    apply elem_of_app in H as [H|H];
    [specialize (IHn1 H) | specialize (IHn2 H) | specialize (IHn1 H) | specialize (IHn2 H)
    | specialize (IHn1 H) | specialize (IHn2 H) | specialize (IHn1 H) | specialize (IHn2 H)
    | specialize (IHn1 H) | specialize (IHn2 H) | specialize (IHn1 H) | specialize (IHn2 H)
    | specialize (IHn1 H) | specialize (IHn2 H) | specialize (IHn1 H) | specialize (IHn2 H)
    | specialize (IHn1 H) | specialize (IHn2 H) | specialize (IHn1 H) | specialize (IHn2 H)
    | specialize (IHn1 H) | specialize (IHn2 H)]; lia.
Qed.

Lemma condition_stage_cases (check : RANode -> result unit)
  (clause : option conditionClause) (g post : RANode) :
  parseStatement_condition check clause g = OK post ->
  post = g \/ exists cond info, post = Selection g cond info.
Proof.
  destruct clause as [c|]; simpl; intros H.
  - inv_bind H. unfold getSelection in E. inv_bind E. inv_bind E.
    injection E as <-. apply setCodeInfoFromNode_OK in H as (ci & _ & ->).
    right. eexists _, _. reflexivity.
  - injection H as <-. now left.
Qed.

(** The node the grouping stage puts on [pre] stays in the tree of the
    statement, and it is the only node of the tree that sits directly on
    [pre]. *)
Lemma grouping_layer_in_statement
  (relations : gmap string (option RelationObject)) (check : RANode -> result unit)
  (s : statement) (root : RANode) :
  groupBy s <> None \/ 0 < numAggregationColumns s ->
  parseStatement check (rec relations check) s = OK root ->
  exists pre,
    stagesBeforeGroupBy relations check s = OK pre /\
    parseStatement_groupBy s pre ∈ nodes root /\
    (forall x, x ∈ nodes root -> height x = S (height pre) ->
               x = parseStatement_groupBy s pre).
Proof.
  intros Hguard H. rewrite parseStatement_stages in H. inv_bind H. rename r into post.
  unfold stagesBeforeProjection in E. inv_bind E. rename r into pre.
  exists pre. split; [exact E0|].
  set (layer := parseStatement_groupBy s pre) in *.
  assert (Hh : height layer = S (height pre)).
  { unfold layer. rewrite (parseStatement_groupBy_guarded s pre Hguard).
    destruct (0 <? length (aggregateFunctionsOf (sel_arg (select s))))%nat;
      reflexivity. }
  assert (Hn : nodes layer = layer :: nodes pre).
  { unfold layer. rewrite (parseStatement_groupBy_guarded s pre Hguard).
    destruct (0 <? length (aggregateFunctionsOf (sel_arg (select s))))%nat;
      reflexivity. }
  assert (Hpost : layer ∈ nodes post /\
                  (S (height pre) <= height post)%nat /\
                  forall x, x ∈ nodes post -> height x = S (height pre) -> x = layer).
  { apply condition_stage_cases in E as [->|(cond & info & ->)].
    - split; [rewrite Hn; left|]. split; [lia|].
      intros x Hx Hhx. rewrite Hn in Hx. apply elem_of_cons in Hx as [Hx|Hx];
        [exact Hx|]. apply height_nodes in Hx. lia.
    - simpl. split; [right; rewrite Hn; left|]. split; [lia|].
      intros x Hx Hhx. apply elem_of_cons in Hx as [->|Hx]; [simpl in Hhx; lia|].
      rewrite Hn in Hx. apply elem_of_cons in Hx as [Hx|Hx]; [exact Hx|].
      apply height_nodes in Hx. lia. }
  destruct Hpost as (Hin & Hle & Huniq).
  apply projection_rename_cases in H. simpl in H.
  destruct H as [[_ ->] | [(_ & _ & cols & ci & _ & ->) | (_ & _ & cols & ci & _ & ->)]].
  - split; assumption.
  - simpl. split; [right; exact Hin|].
    intros x Hx Hhx. apply elem_of_cons in Hx as [->|Hx]; [simpl in Hhx; lia|].
    now apply Huniq.
  - simpl. split; [right; right; exact Hin|].
    intros x Hx Hhx. apply elem_of_cons in Hx as [->|Hx]; [simpl in Hhx; lia|].
    apply elem_of_cons in Hx as [->|Hx]; [simpl in Hhx; lia|].
    now apply Huniq.
Qed.

(** C3: for a statement with a GROUP BY clause or a positive number of
    declared aggregation columns, the tree of the statement has a GroupBy
    node on the root [pre] left by the FROM and WHERE stages exactly when an
    entry of the SELECT list is tagged [aggFunction]; it is then the GroupBy
    over the grouping columns (none without a clause) and the collected
    aggregate functions, and no Projection sits on [pre].  When no entry is
    tagged and a GROUP BY clause is present, the tree has, instead, the
    Projection of [pre] on the grouping columns. *)
Theorem C3_groupBy_iff_aggregate_else_projection
  (relations : gmap string (option RelationObject)) (check : RANode -> result unit)
  (s : statement) (root : RANode) :
  groupBy s <> None \/ 0 < numAggregationColumns s ->
  parseStatement check (rec relations check) s = OK root ->
  let args := sel_arg (select s) in
  exists pre,
    stagesBeforeGroupBy relations check s = OK pre /\
    ((exists cols aggs info, GroupBy pre cols aggs info ∈ nodes root) <->
     (exists a, sel_aggFunction a ∈ args)) /\
    ((exists a, sel_aggFunction a ∈ args) ->
     GroupBy pre (default [] (groupBy s)) (aggregateFunctionsOf args) newNodeInfo
       ∈ nodes root /\
     ~ (exists cols info, Projection pre cols info ∈ nodes root)) /\
    (forall cols,
       groupBy s = Some cols -> ~ (exists a, sel_aggFunction a ∈ args) ->
       Projection pre
         (map (fun c => projColumn (mkColumn (name c) (relAlias c))) cols)
         newNodeInfo ∈ nodes root).
Proof.
  intros Hguard H args.
  destruct (grouping_layer_in_statement _ _ _ _ Hguard H) as (pre & Hpre & Hin & Huniq).
  exists pre. split; [exact Hpre|].
  rewrite (parseStatement_groupBy_guarded s pre Hguard) in Hin, Huniq.
  fold args in Hin, Huniq.
  pose proof (aggregateFunctionsOf_nonempty args) as Hne.
  destruct (0 <? length (aggregateFunctionsOf args))%nat.
  - assert (Hex : exists a, sel_aggFunction a ∈ args) by (now apply Hne).
    split; [|split].
    + split; [intros _; exact Hex | intros _; eexists _, _, _; exact Hin].
    + intros _. split; [exact Hin|].
      intros (cols & info & Hp). apply Huniq in Hp; [discriminate | reflexivity].
    + intros cols _ Hn. contradiction.
  - assert (Hnex : ~ exists a, sel_aggFunction a ∈ args).
    { intros Hex. apply Hne in Hex. discriminate. }
    split; [|split].
    + split; [|intros Hex; contradiction].
      intros (cols & aggs & info & Hg). apply Huniq in Hg; [discriminate | reflexivity].
    + intros Hex. contradiction.
    + intros cols Hcols _. rewrite Hcols in Hin. exact Hin.
Qed.

(** [SELECT DISTINCT COUNT( * ) AS n FROM R GROUP BY c]: the tree has the
    GroupBy on the translated FROM clause; [SELECT DISTINCT c FROM R GROUP BY
    c] has the Projection on [c] there. *)
Lemma C3_count_groups_and_plain_group_projects :
  (exists root,
     parseStatement checkPasses (rec catalogR checkPasses) selectCount = OK root /\
     let args := sel_arg (select selectCount) in
     exists pre,
       stagesBeforeGroupBy catalogR checkPasses selectCount = OK pre /\
       ((exists cols aggs info, GroupBy pre cols aggs info ∈ nodes root) <->
        (exists a, sel_aggFunction a ∈ args)) /\
       ((exists a, sel_aggFunction a ∈ args) ->
        GroupBy pre (default [] (groupBy selectCount)) (aggregateFunctionsOf args)
          newNodeInfo ∈ nodes root /\
        ~ (exists cols info, Projection pre cols info ∈ nodes root)) /\
       (forall cols,
          groupBy selectCount = Some cols -> ~ (exists a, sel_aggFunction a ∈ args) ->
          Projection pre
            (map (fun c => projColumn (mkColumn (name c) (relAlias c))) cols)
            newNodeInfo ∈ nodes root)) /\
  parseStatement checkPasses (rec catalogR checkPasses) selectCount =
    OK (Projection
          (GroupBy (setCodeInfoObject (copy relR) (Some ci0))
             [mkColumnName "c" None] [mkAggregateFunction "COUNT_ALL" None "n"]
             newNodeInfo)
          [projColumn (mkColumn "n" None)]
          (mkNodeInfo (Some ci2) ∅ [] false)) /\
  parseStatement checkPasses (rec catalogR checkPasses) selectGroupOnly =
    OK (Projection
          (Projection (setCodeInfoObject (copy relR) (Some ci0))
             [projColumn (mkColumn "c" None)] newNodeInfo)
          [projColumn (mkColumn "c" None)]
          (mkNodeInfo (Some ci2) ∅ [] false)).
Proof.
  split; [|split; reflexivity].
  eexists. split; [reflexivity|].
  apply (C3_groupBy_iff_aggregate_else_projection catalogR checkPasses selectCount).
  - left. discriminate.
  - reflexivity.
Defined.

(** * Column renaming *)





(** [SELECT a AS '', b FROM R] is translated to the Projection alone. *)
Lemma C8_select_with_empty_alias :
  rec catalogR checkPasses (sql_statement selectEmptyAlias info1) =
  OK (Projection (setCodeInfoObject (copy relR) (Some ci0))
        [projColumn (mkColumn "a" None); projColumn (mkColumn "b" None)]
        (mkNodeInfo (Some ci1) ∅
           [mkWarning (i18n_t "db.messages.translate.warning-distinct-missing" [])
              (Some ci1)]
           false)).
Proof. reflexivity. Qed.

(** * Relation lookup *)

(** The translators read the catalog through [relations[name]] only. *)
Lemma rec_lookup_ext (R1 R2 : gmap string (option RelationObject))
  (check : RANode -> result unit) :
  (forall name, lookupRelation R1 name = lookupRelation R2 name) ->
  forall n, rec R1 check n = rec R2 check n.
Proof.
  intros Hext. induction n using astNode_from_ind; simpl;
    rewrite ?IHn, ?IHn1, ?IHn2, ?Hext; try reflexivity.
  unfold parseStatement, parseStatement_from. rewrite IHn. reflexivity.
Qed.

Lemma recRANode_lookup_ext (R1 R2 : gmap string (option RelationObject)) :
  (forall name, lookupRelation R1 name = lookupRelation R2 name) ->
  forall n, recRANode R1 n = recRANode R2 n.
Proof.
  intros Hext. induction n; simpl; rewrite ?IHn, ?IHn1, ?IHn2, ?Hext; reflexivity.
Qed.


Lemma lookupRelation_delete_undefined
  (relations : gmap string (option RelationObject)) (name : string) :
  relations !! name = Some None ->
  isObjectPrototypeMember name = false ->
  forall other, lookupRelation relations other = lookupRelation (delete name relations) other.
Proof.
  intros H Hm other. unfold lookupRelation.
  destruct (decide (name = other)) as [->|Hne].
  - rewrite H, lookup_delete_eq, Hm. reflexivity.
  - rewrite lookup_delete_ne by exact Hne. reflexivity.
Qed.



(** C10, as the code has it: a reference to a name that is a catalog key
    holding [undefined] fails with the relation-not-found error in both
    translators; when the name is not one every object inherits from
    [Object.prototype], the key behaves as a key that is not there: every
    translation gives the same result as against the catalog without it. *)
Theorem C10_undefined_value_raises_relation_not_found
  (relations : gmap string (option RelationObject)) (check : RANode -> result unit)
  (name : string) (relAlias : option string) (i : astInfo) :
  relations !! name = Some None ->
  rec relations check (sql_relation name relAlias i)
    = Err (relationNotFound name (codeInfo i)) /\
  recRANode relations (ra_relation name i)
    = Err (relationNotFound name (codeInfo i)) /\
  (isObjectPrototypeMember name = false ->
   (forall n, rec relations check n = rec (delete name relations) check n) /\
   (forall n, recRANode relations n = recRANode (delete name relations) n)).
Proof.
  intros H. split; [|split].
  - simpl. unfold lookupRelation. rewrite H. reflexivity.
  - simpl. unfold lookupRelation. rewrite H. reflexivity.
  - intros Hm. split.
    + apply rec_lookup_ext, lookupRelation_delete_undefined; assumption.
    + apply recRANode_lookup_ext, lookupRelation_delete_undefined; assumption.
Qed.

Lemma C10_ghost_bound_to_undefined :
  rec catalogUndefined checkPasses (sql_relation "ghost" None info0)
    = Err (relationNotFound "ghost" (codeInfo info0)) /\
  recRANode catalogUndefined (ra_relation "ghost" info0)
    = Err (relationNotFound "ghost" (codeInfo info0)) /\
  (isObjectPrototypeMember "ghost" = false ->
   (forall n, rec catalogUndefined checkPasses n
              = rec (delete "ghost" catalogUndefined) checkPasses n) /\
   (forall n, recRANode catalogUndefined n
              = recRANode (delete "ghost" catalogUndefined) n)).
Proof.
  apply (C10_undefined_value_raises_relation_not_found catalogUndefined checkPasses
           "ghost" None info0).
  reflexivity.
Defined.

(** In [catalogToString] the key [toString] holds [undefined]: the reference
    to it fails with the relation-not-found error.  Without the key the
    reference finds the member inherited from [Object.prototype] and raises a
    TypeError: the key is not treated as a key that is not there. *)
Lemma C10_undefined_toString_differs_from_absent :
  catalogToString !! "toString" = Some None /\
  rec catalogToString checkPasses (sql_relation "toString" None info0)
    = Err (relationNotFound "toString" (Some ci0)) /\
  rec (delete "toString" catalogToString) checkPasses
      (sql_relation "toString" None info0) = Err TypeError /\
  recRANode catalogToString (ra_relation "toString" info0)
    = Err (relationNotFound "toString" (Some ci0)) /\
  recRANode (delete "toString" catalogToString) (ra_relation "toString" info0)
    = Err TypeError /\
  ~ (rec catalogToString checkPasses (sql_relation "toString" None info0)
     = rec (delete "toString" catalogToString) checkPasses
         (sql_relation "toString" None info0)).
Proof.
  split; [reflexivity|]. split; [reflexivity|]. split; [reflexivity|].
  split; [reflexivity|]. split; [reflexivity|].
  intros H. vm_compute in H. discriminate.
Qed.

(** * Annotations: metadata, warnings, positions *)

Lemma nodeInfo_updateInfo (f : NodeInfo -> NodeInfo) (n : RANode) :
  nodeInfo (updateInfo f n) = f (nodeInfo n).
Proof. destruct n; reflexivity. Qed.

Lemma nodes_updateInfo (f : NodeInfo -> NodeInfo) (n : RANode) :
  nodes (updateInfo f n) = updateInfo f n :: tail (nodes n).
Proof. destruct n; reflexivity. Qed.

Lemma fold_setMetaData_info (md : gmap string literal) (node : RANode) :
  nodeInfo (map_fold (fun key value n => setMetaData n key value) node md) =
  mkNodeInfo (n_codeInfo (nodeInfo node)) (md ∪ n_metaData (nodeInfo node))
    (n_warnings (nodeInfo node)) (n_wrappedInParentheses (nodeInfo node)).
Proof.
  apply (map_fold_weak_ind
    (fun r (m : gmap string literal) =>
       nodeInfo r =
       mkNodeInfo (n_codeInfo (nodeInfo node)) (m ∪ n_metaData (nodeInfo node))
         (n_warnings (nodeInfo node)) (n_wrappedInParentheses (nodeInfo node)))).
  - rewrite (left_id_L ∅ (∪)). destruct (nodeInfo node); reflexivity.
  - intros key value m r _ IH. unfold setMetaData.
    rewrite nodeInfo_updateInfo, IH. simpl. now rewrite insert_union_l.
Qed.

Lemma updateInfo_updateInfo (f g : NodeInfo -> NodeInfo) (n : RANode) :
  updateInfo g (updateInfo f n) = updateInfo (fun i => g (f i)) n.
Proof. destruct n; reflexivity. Qed.

Lemma updateInfo_const (f : NodeInfo -> NodeInfo) (n : RANode) :
  updateInfo f n = updateInfo (fun _ => f (nodeInfo n)) n.
Proof. destruct n; reflexivity. Qed.

Lemma updateInfo_id (f : NodeInfo -> NodeInfo) (n : RANode) :
  f (nodeInfo n) = nodeInfo n -> updateInfo f n = n.
Proof. destruct n; simpl; intros ->; reflexivity. Qed.

Lemma fold_setMetaData_updateInfo (md : gmap string literal) (node : RANode) :
  exists f,
    map_fold (fun key value n => setMetaData n key value) node md = updateInfo f node.
Proof.
  apply (map_fold_weak_ind
    (fun r (m : gmap string literal) => exists f, r = updateInfo f node)).
  - exists (fun x => x). symmetry. now apply updateInfo_id.
  - intros key value m r _ [f ->]. unfold setMetaData.
    rewrite updateInfo_updateInfo. eexists; reflexivity.
Qed.

(** [setAdditionalData] throws exactly when the metadata mapping has an own
    key [hasOwnProperty]; otherwise it changes the annotations of the node
    and nothing else: the position becomes that of the AST node, the
    declared metadata is laid over the metadata of the node, the warnings
    stay, the flag is set when the AST node has it. *)
Lemma setAdditionalData_cases (i : astInfo) (node : RANode) :
  setAdditionalData i node =
  if metaDataCopyable i then
    OK (updateInfo (fun _ =>
          mkNodeInfo (codeInfo i)
            (default ∅ (metaData i) ∪ n_metaData (nodeInfo node))
            (n_warnings (nodeInfo node))
            (if wrappedInParentheses i then true
             else n_wrappedInParentheses (nodeInfo node))) node)
  else Err TypeError.
Proof.
  unfold setAdditionalData, metaDataCopyable, copyMetaData.
  destruct (metaData i) as [md|]; simpl.
  - destruct (bool_decide (is_Some (md !! "hasOwnProperty"))); simpl; [reflexivity|].
    f_equal. destruct (fold_setMetaData_updateInfo md
                         (setCodeInfoObject node (codeInfo i))) as [f Hf].
    pose proof (fold_setMetaData_info md (setCodeInfoObject node (codeInfo i))) as Hi.
    rewrite Hf in *. unfold setCodeInfoObject in *.
    rewrite updateInfo_updateInfo in *. rewrite !nodeInfo_updateInfo in Hi.
    simpl in Hi.
    destruct (wrappedInParentheses i); unfold setWrappedInParentheses;
      rewrite ?updateInfo_updateInfo;
      rewrite (updateInfo_const _ node), Hi; reflexivity.
  - f_equal. rewrite (left_id_L ∅ (∪)). unfold setCodeInfoObject.
    destruct (wrappedInParentheses i); unfold setWrappedInParentheses;
      rewrite ?updateInfo_updateInfo; apply updateInfo_const.
Qed.

Lemma setAdditionalData_OK (i : astInfo) (node r : RANode) :
  setAdditionalData i node = OK r ->
  metaDataCopyable i = true /\
  r = updateInfo (fun _ =>
        mkNodeInfo (codeInfo i)
          (default ∅ (metaData i) ∪ n_metaData (nodeInfo node))
          (n_warnings (nodeInfo node))
          (if wrappedInParentheses i then true
           else n_wrappedInParentheses (nodeInfo node))) node.
Proof.
  rewrite setAdditionalData_cases. destruct (metaDataCopyable i); [|discriminate].
  intros H. injection H as <-. split; reflexivity.
Qed.

Lemma recRANode_annotated (relations : gmap string (option RelationObject))
  (n : relalgOperation) (root : RANode) :
  recRANode relations n = OK root ->
  exists node, setAdditionalData (relalgInfo n) node = OK root.
Proof.
  destruct n; simpl; intros H.
  - destruct (lookupRelation relations name0) as [[r|m]|]; try discriminate. eauto.
  - destruct (codeInfo i); [|discriminate]. eauto.
  - inv_bind H. inv_bind H. eauto.
  - inv_bind H. inv_bind H. eauto.
  - inv_bind H. eauto.
  - inv_bind H. eauto.
  - inv_bind H. inv_bind H. eauto.
  - inv_bind H. eauto.
  - inv_bind H. eauto.
  - inv_bind H. inv_bind H. inv_bind H. eauto.
  - inv_bind H. inv_bind H. inv_bind H. eauto.
Qed.

(** C7, as the code has it: the RA-syntax translator copies every entry of
    the metadata mapping an AST node declares onto the tree node it produces
    for it; the SQL-syntax translator does not read the mapping, its result
    is the same whatever the node declares. *)
Theorem C7_metaData_copied_by_relalg_translator_only
  (relations : gmap string (option RelationObject)) (check : RANode -> result unit)
  (n : relalgOperation) (root : RANode) (md : gmap string literal)
  (key : string) (value : literal) :
  recRANode relations n = OK root ->
  metaData (relalgInfo n) = Some md ->
  md !! key = Some value ->
  n_metaData (nodeInfo root) !! key = Some value /\
  (forall (sqlNode : astNode) (declared : option (gmap string literal)),
     rec relations check (withMetaData declared sqlNode) = rec relations check sqlNode).
Proof.
  intros Hrec Hmd Hk. split.
  - apply recRANode_annotated in Hrec as [node Hnode].
    apply setAdditionalData_OK in Hnode as [_ ->].
    rewrite nodeInfo_updateInfo, Hmd. simpl.
    now apply lookup_union_Some_l.
  - intros sqlNode declared. destruct sqlNode; reflexivity.
Qed.

(** The reference to [R] that declares [note = 'x'], in the RA syntax. *)
Lemma C7_relalg_relation_with_note :
  exists root,
    recRANode catalogR (ra_relation "R" infoWithMetaData) = OK root /\
    n_metaData (nodeInfo root) !! "note" = Some (LString "x") /\
    (forall (sqlNode : astNode) (declared : option (gmap string literal)),
       rec catalogR checkPasses (withMetaData declared sqlNode)
       = rec catalogR checkPasses sqlNode).
Proof.
  eexists. split; [reflexivity|].
  apply (C7_metaData_copied_by_relalg_translator_only catalogR checkPasses
           (ra_relation "R" infoWithMetaData) _
           {[ "note" := LString "x" ]} "note" (LString "x")); reflexivity.
Defined.

(** The same reference in the SQL syntax: the node declares [note = 'x'],
    the tree node produced for it has no metadata. *)
Lemma C7_sql_relation_loses_note :
  metaData infoWithMetaData = Some {[ "note" := LString "x" ]} /\
  rec catalogR checkPasses (sql_relation "R" None infoWithMetaData)
    = OK (Relation "R" (rel_schema relR) (rel_rows relR)
            (mkNodeInfo (Some ci0) ∅ [] false)) /\
  ~ (forall root,
       rec catalogR checkPasses (sql_relation "R" None infoWithMetaData) = OK root ->
       n_metaData (nodeInfo root) !! "note" = Some (LString "x")).
Proof.
  split; [reflexivity|]. split; [reflexivity|].
  intros H. specialize (H _ eq_refl). vm_compute in H. discriminate.
Qed.

Lemma rec_relationFromSubstatement
  (relations : gmap string (option RelationObject)) (check : RANode -> result unit)
  (st : astNode) (a : string) (j : astInfo) :
  rec relations check (sql_relationFromSubstatement st a j) =
  do rel <- rec relations check st;
  setCodeInfoFromNode
    (if wrappedInParentheses j
     then setWrappedInParentheses (RenameRelation rel a newNodeInfo) true
     else RenameRelation rel a newNodeInfo)
    (codeInfo j).
Proof.
  simpl. destruct (rec relations check st); reflexivity.
Qed.

(** C9: whenever a statement node is translated, the missing-DISTINCT
    warning, with the position of the statement, is appended to the warnings
    of the node built for it if [distinct] is false, and nothing is appended
    if it is true; the statement of a [relationFromSubstatement] wrapper is
    translated by the same function, so the node under the RenameRelation is
    that annotated node. *)
Theorem C9_distinct_missing_on_every_statement
  (relations : gmap string (option RelationObject)) (check : RANode -> result unit)
  (s : statement) (i : astInfo) (node : RANode) (ci : CodeInfo) :
  parseStatement check (rec relations check) s = OK node ->
  codeInfo i = Some ci ->
  exists root,
    rec relations check (sql_statement s i) = OK root /\
    n_warnings (nodeInfo root) =
      (n_warnings (nodeInfo node) ++
       (if distinct (select s) then [] else [distinctMissing (Some ci)]))%list /\
    (forall relAlias j cj,
       codeInfo j = Some cj ->
       exists info,
         rec relations check (sql_relationFromSubstatement (sql_statement s i) relAlias j)
         = OK (RenameRelation root relAlias info)).
Proof.
  intros Hp Hi.
  assert (Hroot : exists root,
    rec relations check (sql_statement s i) = OK root /\
    n_warnings (nodeInfo root) =
      (n_warnings (nodeInfo node) ++
       (if distinct (select s) then [] else [distinctMissing (Some ci)]))%list).
  { simpl. rewrite Hp, Hi. simpl.
    destruct (distinct (select s)), (wrappedInParentheses i); simpl;
      eexists; (split; [reflexivity|]);
      unfold setCodeInfoObject, setWrappedInParentheses, addWarning;
      rewrite ?nodeInfo_updateInfo; simpl; rewrite ?app_nil_r; reflexivity. }
  destruct Hroot as (root & Hrec & Hw). exists root.
  split; [exact Hrec|]. split; [exact Hw|].
  intros relAlias j cj Hj. rewrite rec_relationFromSubstatement, Hrec, Hj. simpl.
  destruct (wrappedInParentheses j); eexists; reflexivity.
Qed.

(** [SELECT a AS x, b FROM R], at the root and as a sub-statement. *)
Lemma C9_select_without_distinct :
  exists root,
    rec catalogR checkPasses (sql_statement selectAliased info1) = OK root /\
    n_warnings (nodeInfo root) =
      ([] ++ (if distinct (select selectAliased) then []
              else [distinctMissing (Some ci1)]))%list /\
    (forall relAlias j cj,
       codeInfo j = Some cj ->
       exists info,
         rec catalogR checkPasses
           (sql_relationFromSubstatement (sql_statement selectAliased info1) relAlias j)
         = OK (RenameRelation root relAlias info)).
Proof.
  apply (C9_distinct_missing_on_every_statement catalogR checkPasses selectAliased
           info1
           (RenameColumns
              (Projection (setCodeInfoObject (copy relR) (Some ci0))
                 [projColumn (mkColumn "a" None); projColumn (mkColumn "b" None)]
                 (mkNodeInfo (Some ci2) ∅ [] false))
              [mkRenaming "x" "a" None] newNodeInfo)
           ci1); reflexivity.
Defined.

(** * Source positions *)

Lemma unpositioned_node (g root : RANode) :
  g ∈ nodes root -> hasCodeInfo g = false -> allPositioned root = false.
Proof.
  intros Hin Hg. unfold allPositioned.
  destruct (forallb hasCodeInfo (nodes root)) eqn:E; [|reflexivity].
  rewrite forallb_forall in E. apply list_elem_of_In in Hin.
  rewrite (E g Hin) in Hg. discriminate.
Qed.

Lemma condition_stage_nodes (check : RANode -> result unit)
  (clause : option conditionClause) (g root : RANode) :
  parseStatement_condition check clause g = OK root -> g ∈ nodes root.
Proof.
  destruct clause as [c|]; simpl; intros H.
  - inv_bind H. unfold getSelection in E. inv_bind E. inv_bind E.
    injection E as <-. apply setCodeInfoFromNode_OK in H as (ci & _ & ->).
    simpl. right. destruct g; left.
  - injection H as <-. destruct g; left.
Qed.

Lemma aggregate_not_bare_wildcard (args : list projectionArg) :
  (exists a, sel_aggFunction a ∈ args) -> isBareWildcard args = false.
Proof.
  intros [a Ha]. apply isBareWildcard_false. intros [alias ->].
  apply elem_of_cons in Ha as [Ha|Ha]; [discriminate | now apply elem_of_nil in Ha].
Qed.

(** C6, where the code departs from it: the GroupBy node that the grouping
    stage builds never gets a source position.  For a statement that
    aggregates, the GroupBy node over the root of the FROM and WHERE stages
    is a node of the translated tree and its position is still missing, so
    the tree is not positioned throughout. *)
Theorem C6_groupBy_node_without_position
  (relations : gmap string (option RelationObject)) (check : RANode -> result unit)
  (s : statement) (i : astInfo) (root : RANode) :
  groupBy s <> None \/ 0 < numAggregationColumns s ->
  (exists a, sel_aggFunction a ∈ sel_arg (select s)) ->
  rec relations check (sql_statement s i) = OK root ->
  exists pre,
    stagesBeforeGroupBy relations check s = OK pre /\
    let g := GroupBy pre (default [] (groupBy s))
               (aggregateFunctionsOf (sel_arg (select s))) newNodeInfo in
    g ∈ nodes root /\ n_codeInfo (nodeInfo g) = None /\ allPositioned root = false.
Proof.
  intros Hguard Hagg H. simpl in H. inv_bind H. inv_bind E. rename r0 into node.
  injection E as <-.
  rewrite parseStatement_stages in E0. inv_bind E0. rename r into pre'.
  unfold stagesBeforeProjection in E. inv_bind E. rename r into pre.
  exists pre. split; [exact E1|].
  rewrite (parseStatement_groupBy_aggregate s pre Hguard Hagg) in E.
  set (g := GroupBy pre (default [] (groupBy s))
              (aggregateFunctionsOf (sel_arg (select s))) newNodeInfo) in *.
  simpl. apply condition_stage_nodes in E.
  assert (Hin : g ∈ tail (nodes node)).
  { apply projection_rename_cases in E0. simpl in E0.
    rewrite (aggregate_not_bare_wildcard _ Hagg) in E0.
    destruct E0 as [[Hf _] | [(_ & _ & cols & ci & _ & ->) | (_ & _ & cols & ci & _ & ->)]].
    - discriminate.
    - exact E.
    - simpl. right. exact E. }
  assert (Hroot : g ∈ nodes root).
  { apply setCodeInfoFromNode_OK in H as (ci & _ & ->).
    unfold setCodeInfoObject. rewrite nodes_updateInfo. right.
    destruct (wrappedInParentheses i), (distinct (select s)); simpl;
      unfold setWrappedInParentheses, addWarning; rewrite ?nodes_updateInfo;
      simpl; exact Hin. }
  split; [exact Hroot|]. split; [reflexivity|].
  apply (unpositioned_node g root Hroot). reflexivity.
Qed.

(** [SELECT COUNT( * ) AS n FROM R GROUP BY c]: the GroupBy node under the
    Projection has no position. *)
Lemma C6_select_count_group_by :
  rec catalogR checkPasses (sql_statement selectCount info1) =
    OK (Projection
          (GroupBy (setCodeInfoObject (copy relR) (Some ci0))
             [mkColumnName "c" None] [mkAggregateFunction "COUNT_ALL" None "n"]
             newNodeInfo)
          [projColumn (mkColumn "n" None)]
          (mkNodeInfo (Some ci1) ∅ [] false)) /\
  exists pre,
    stagesBeforeGroupBy catalogR checkPasses selectCount = OK pre /\
    let g := GroupBy pre (default [] (groupBy selectCount))
               (aggregateFunctionsOf (sel_arg (select selectCount))) newNodeInfo in
    g ∈ nodes
          (Projection
             (GroupBy (setCodeInfoObject (copy relR) (Some ci0))
                [mkColumnName "c" None] [mkAggregateFunction "COUNT_ALL" None "n"]
                newNodeInfo)
             [projColumn (mkColumn "n" None)]
             (mkNodeInfo (Some ci1) ∅ [] false)) /\
    n_codeInfo (nodeInfo g) = None /\
    allPositioned
      (Projection
         (GroupBy (setCodeInfoObject (copy relR) (Some ci0))
            [mkColumnName "c" None] [mkAggregateFunction "COUNT_ALL" None "n"]
            newNodeInfo)
         [projColumn (mkColumn "n" None)]
         (mkNodeInfo (Some ci1) ∅ [] false)) = false.
Proof.
  split; [reflexivity|].
  apply (C6_groupBy_node_without_position catalogR checkPasses selectCount info1).
  - left. discriminate.
  - eexists. left.
  - reflexivity.
Defined.

(** [SELECT c FROM R GROUP BY c]: the Projection of the grouping stage, under
    the Projection of the projection stage, has no position either. *)
Lemma select_group_only_fallback_projection :
  rec catalogR checkPasses (sql_statement selectGroupOnly info1) =
  OK (Projection
        (Projection (setCodeInfoObject (copy relR) (Some ci0))
           [projColumn (mkColumn "c" None)] newNodeInfo)
        [projColumn (mkColumn "c" None)]
        (mkNodeInfo (Some ci1) ∅ [] false)).
Proof. reflexivity. Qed.

(** The RA-syntax translator, in contrast, positions every node it builds:
    [setAdditionalData] is applied in every case of [recRANode]. *)
Lemma setAdditionalData_allPositioned (i : astInfo) (node root : RANode)
  (ci : CodeInfo) :
  setAdditionalData i node = OK root ->
  codeInfo i = Some ci ->
  forallb hasCodeInfo (tail (nodes node)) = true ->
  allPositioned root = true.
Proof.
  intros H Hi Hrest. apply setAdditionalData_OK in H as [_ ->].
  unfold allPositioned. rewrite nodes_updateInfo. simpl.
  rewrite Hrest. unfold hasCodeInfo. rewrite nodeInfo_updateInfo. simpl.
  rewrite Hi. reflexivity.
Qed.

(** When every node of the RA AST carries a source position, so does every
    node of the tree the RA-syntax translator returns. *)
Lemma recRANode_allPositioned (relations : gmap string (option RelationObject))
  (n : relalgOperation) :
  relalgPositioned n = true ->
  forall root, recRANode relations n = OK root -> allPositioned root = true.
Proof.
  induction n; simpl; intros Hp root H;
    destruct (codeInfo i) as [ci|] eqn:Hi; try discriminate; simpl in Hp;
    try (apply andb_prop in Hp as [Hp1 Hp2]).
  - destruct (lookupRelation relations name0) as [[r|m]|]; try discriminate.
    now apply (setAdditionalData_allPositioned _ _ _ ci H).
  - now apply (setAdditionalData_allPositioned _ _ _ ci H).
  - inv_bind H. inv_bind H.
    apply (setAdditionalData_allPositioned _ _ _ ci H Hi). simpl. now apply IHn.
  - inv_bind H. inv_bind H.
    apply (setAdditionalData_allPositioned _ _ _ ci H Hi). simpl. now apply IHn.
  - inv_bind H.
    apply (setAdditionalData_allPositioned _ _ _ ci H Hi). simpl. now apply IHn.
  - inv_bind H.
    apply (setAdditionalData_allPositioned _ _ _ ci H Hi). simpl. now apply IHn.
  - inv_bind H. inv_bind H.
    apply (setAdditionalData_allPositioned _ _ _ ci H Hi).
    specialize (IHn1 Hp1 _ E). specialize (IHn2 Hp2 _ E0).
    destruct type; simpl; rewrite forallb_app; apply andb_true_intro; split; assumption.
  - inv_bind H.
    apply (setAdditionalData_allPositioned _ _ _ ci H Hi). simpl. now apply IHn.
  - inv_bind H.
    apply (setAdditionalData_allPositioned _ _ _ ci H Hi). simpl. now apply IHn.
  - inv_bind H. inv_bind H. inv_bind H.
    apply (setAdditionalData_allPositioned _ _ _ ci H Hi).
    specialize (IHn1 Hp1 _ E0). specialize (IHn2 Hp2 _ E1).
    simpl; rewrite forallb_app; apply andb_true_intro; split; assumption.
  - inv_bind H. inv_bind H. inv_bind H.
    apply (setAdditionalData_allPositioned _ _ _ ci H Hi).
    specialize (IHn1 Hp1 _ E). specialize (IHn2 Hp2 _ E0).
    destruct type; simpl; rewrite forallb_app; apply andb_true_intro; split; assumption.
Qed.

(** A reference to a name the catalog does not bind to a relation
    ([relations[name]] is [undefined] or an inherited member) aborts the
    whole SQL translation: no tree is returned for an AST that contains
    it. *)
Lemma dangling_reference_aborts_translation
  (relations : gmap string (option RelationObject)) (check : RANode -> result unit)
  (name : string) :
  (forall r, lookupRelation relations name <> Some (relationValue r)) ->
  forall n, referencesRelation name n -> isOK (rec relations check n) = false.
Proof.
  intros Hl. induction n using astNode_from_ind; simpl; intros Href.
  - subst name0. destruct (lookupRelation relations name) as [[r|m]|] eqn:E;
      try reflexivity. now destruct (Hl r).
  - unfold parseStatement, parseStatement_from.
    destruct (rec relations check (from s)); [|reflexivity].
    specialize (IHn Href). discriminate.
  - destruct (rec relations check n); [|reflexivity].
    specialize (IHn Href). discriminate.
  - destruct (rec relations check n); [|reflexivity].
    specialize (IHn Href). discriminate.
  - destruct (parseJoinCondition cond); [|reflexivity]. simpl.
    destruct (rec relations check n1); [|reflexivity]. simpl.
    destruct (rec relations check n2); [|reflexivity].
    destruct Href as [Href|Href]; [specialize (IHn1 Href) | specialize (IHn2 Href)];
      discriminate.
  - destruct (rec relations check n1); [|reflexivity]. simpl.
    destruct (rec relations check n2); [|reflexivity].
    destruct Href as [Href|Href]; [specialize (IHn1 Href) | specialize (IHn2 Href)];
      discriminate.
  - destruct (rec relations check n1); [|reflexivity]. simpl.
    destruct (rec relations check n2); [|reflexivity].
    destruct Href as [Href|Href]; [specialize (IHn1 Href) | specialize (IHn2 Href)];
      discriminate.
  - destruct (rec relations check n1); [|reflexivity]. simpl.
    destruct (rec relations check n2); [|reflexivity].
    destruct Href as [Href|Href]; [specialize (IHn1 Href) | specialize (IHn2 Href)];
      discriminate.
  - destruct (rec relations check n); [|reflexivity].
    specialize (IHn Href). discriminate.
  - destruct (rec relations check n) eqn:E.
    + specialize (IHn Href). discriminate.
    + destruct (l =? -1); reflexivity.
  - contradiction.
Qed.

(** * Value expressions and join conditions *)

Lemma recValueExpr_unfold (datatype func : string) (args : list valueExprArg)
  (ci : option CodeInfo) (w : bool) :
  recValueExpr (mkValueExpr datatype func args ci w) =
  do node <-
    (if String.eqb datatype "null" && String.eqb func "columnValue" then
       OK (newValueExprColumnValue (args !! 0%nat) (args !! 1%nat))
     else if implementedDatatype datatype then
       do tmp <- recValueExprArgs func args;
       OK (newValueExprGeneric datatype func tmp)
     else Err (InternalError "not implemented yet"));
  OK (if w then expr_setWrappedInParentheses (expr_setCodeInfoObject node ci) true
      else expr_setCodeInfoObject node ci).
Proof. reflexivity. Qed.

Lemma recValueExprArgs_length (func : string) (args : list valueExprArg)
  (tmp : list ValueExprArg) :
  recValueExprArgs func args = OK tmp -> length tmp = length args.
Proof.
  revert tmp. induction args as [|a rest IH]; intros tmp H; simpl in H.
  - injection H as <-. reflexivity.
  - inv_bind H. inv_bind H. injection H as <-. simpl. now rewrite (IH _ E0).
Qed.

Lemma recValueExprArgs_constant (args : list valueExprArg) :
  recValueExprArgs "constant" args = OK (map Verbatim args).
Proof.
  induction args as [|a rest IH]; simpl; [reflexivity|].
  simpl in IH. rewrite IH. reflexivity.
Qed.

(** A translated expression node mirrors its AST node: same position, same
    parenthesization flag; it is the column reference on the first two
    arguments when the node is a [null]-typed [columnValue], and otherwise a
    generic node of the same datatype and function with one argument per
    argument of the AST node. *)
Theorem recValueExpr_mirrors_node (datatype func : string)
  (args : list valueExprArg) (ci : option CodeInfo) (w : bool) (e : ValueExpr) :
  recValueExpr (mkValueExpr datatype func args ci w) = OK e ->
  exprCodeInfo e = ci /\ exprWrapped e = w /\
  ((datatype = "null" /\ func = "columnValue" /\
    e = ValueExprColumnValue (args !! 0%nat) (args !! 1%nat) ci w) \/
   (~ (datatype = "null" /\ func = "columnValue") /\
    exists args', e = ValueExprGeneric datatype func args' ci w /\
                  length args' = length args)).
Proof.
  rewrite recValueExpr_unfold. intros H. inv_bind H. injection H as <-.
  destruct (String.eqb datatype "null" && String.eqb func "columnValue") eqn:Hc.
  - injection E as <-. apply andb_prop in Hc as [Hd Hf].
    apply String.eqb_eq in Hd, Hf. subst.
    destruct w; simpl; repeat split; left; repeat split.
  - assert (Hn : ~ (datatype = "null" /\ func = "columnValue")).
    { intros [-> ->]. discriminate. }
    destruct (implementedDatatype datatype); [|discriminate].
    inv_bind E. injection E as <-. apply recValueExprArgs_length in E0.
    destruct w; simpl; repeat split; right; (split; [exact Hn|]);
      eexists; (split; [reflexivity | exact E0]).
Qed.

Lemma recValueExpr_mirrors_greater :
  exists e,
    recValueExpr exprGreater = OK e /\
    exprCodeInfo e = Some ci1 /\ exprWrapped e = true /\
    (("boolean" = "null" /\ ">" = "columnValue" /\
      e = ValueExprColumnValue
            ([argExpr exprColumnAB; argExpr exprThree] !! 0%nat)
            ([argExpr exprColumnAB; argExpr exprThree] !! 1%nat) (Some ci1) true) \/
     (~ ("boolean" = "null" /\ ">" = "columnValue") /\
      exists args', e = ValueExprGeneric "boolean" ">" args' (Some ci1) true /\
                    length args' = length [argExpr exprColumnAB; argExpr exprThree])).
Proof.
  eexists. split; [reflexivity|].
  apply (recValueExpr_mirrors_node "boolean" ">"
           [argExpr exprColumnAB; argExpr exprThree] (Some ci1) true).
  reflexivity.
Defined.

(** The arguments of a constant are taken over as they are, without being
    translated: a constant of an implemented datatype always translates,
    whatever its arguments. *)
Theorem recValueExpr_constant_verbatim (datatype : string)
  (args : list valueExprArg) (ci : option CodeInfo) (w : bool) :
  implementedDatatype datatype = true ->
  recValueExpr (mkValueExpr datatype "constant" args ci w) =
  OK (ValueExprGeneric datatype "constant" (map Verbatim args) ci w).
Proof.
  intros Hd. rewrite recValueExpr_unfold.
  replace (String.eqb datatype "null" && String.eqb "constant" "columnValue")
    with false by (now rewrite andb_false_r).
  rewrite Hd, recValueExprArgs_constant. destruct w; reflexivity.
Qed.

Lemma recValueExpr_constant_three :
  recValueExpr exprThree =
  OK (ValueExprGeneric "number" "constant" [Verbatim (argLiteral (LNumber 3))]
        (Some ci2) false).
Proof.
  apply (recValueExpr_constant_verbatim "number" [argLiteral (LNumber 3)] (Some ci2) false).
  reflexivity.
Defined.

Lemma recValueExprArgs_isOK (func : string) (args : list valueExprArg) :
  Forall (fun a => match a with
                   | argExpr e => isOK (recValueExpr e) = exprTranslatable e
                   | argLiteral _ => True
                   end) args ->
  isOK (recValueExprArgs func args) =
  (String.eqb func "constant"
   || forallb (fun a => match a with
                        | argExpr e => exprTranslatable e
                        | argLiteral _ => false
                        end) args).
Proof.
  destruct (String.eqb func "constant") eqn:Hf.
  - intros _. apply String.eqb_eq in Hf. subst func.
    now rewrite recValueExprArgs_constant.
  - induction 1 as [|a rest Ha _ IH]; [reflexivity|].
    simpl. rewrite Hf. simpl in IH.
    destruct a as [v|e].
    + destruct v; reflexivity.
    + rewrite <- Ha. destruct (recValueExpr e); simpl; [|reflexivity].
      destruct (recValueExprArgs func rest); simpl in *; exact IH.
Qed.

Lemma recValueExpr_isOK (n : valueExpr) :
  isOK (recValueExpr n) = exprTranslatable n.
Proof.
  induction n as [datatype func args ci w IH] using valueExpr_nested_ind.
  rewrite recValueExpr_unfold. simpl.
  destruct (String.eqb datatype "null" && String.eqb func "columnValue");
    [reflexivity|].
  destruct (implementedDatatype datatype); [|reflexivity]. simpl.
  rewrite <- (recValueExprArgs_isOK func args IH).
  destruct (recValueExprArgs func args); reflexivity.
Qed.

(** Expression translation succeeds exactly on the translatable expressions:
    it fails if and only if it reaches, outside the arguments of a constant
    or of a column reference, a node whose datatype is none of string,
    number, boolean, date, null, or an argument that is not an expression. *)
Theorem recValueExpr_succeeds_iff_translatable (n : valueExpr) :
  (exists e, recValueExpr n = OK e) <-> exprTranslatable n = true.
Proof.
  rewrite <- recValueExpr_isOK. destruct (recValueExpr n) as [e|err]; simpl.
  - split; [reflexivity | eauto].
  - split; [intros [e He]; discriminate | discriminate].
Qed.

(** A node of any other datatype fails with the internal error. *)
Lemma recValueExpr_blob :
  recValueExpr exprBlob = Err (InternalError "not implemented yet").
Proof. reflexivity. Qed.

(** A join condition fails only through its expression: without a condition
    and with a list of columns the result is the natural condition (on all
    shared columns, or restricted to the list, in its order); with an
    expression it is the theta condition on the translated expression, or
    the error of that translation. *)
Theorem parseJoinCondition_fails_only_through_expression
  (condition : joinConditionAst) :
  (forall e, parseJoinCondition condition = Err e <->
             exists x, condition = condExpr x /\ recValueExpr x = Err e) /\
  (forall jc, parseJoinCondition condition = OK jc ->
     match condition with
     | condNull => jc = natural None
     | condColumns cols => jc = natural (Some cols)
     | condExpr x => exists x', recValueExpr x = OK x' /\ jc = theta x'
     end).
Proof.
  split.
  - intros e. destruct condition as [|cols|x]; simpl.
    + split; [discriminate | intros (x & Hx & _); discriminate].
    + split; [discriminate | intros (x & Hx & _); discriminate].
    + destruct (recValueExpr x) as [x'|e'] eqn:Hx; simpl.
      * split; [discriminate|]. intros (y & Hy & He). injection Hy as <-.
        rewrite Hx in He. discriminate.
      * split; [intros H; injection H as <-; eauto|].
        intros (y & Hy & He). injection Hy as <-. rewrite Hx in He.
        now injection He as <-.
  - intros jc H. destruct condition as [|cols|x]; simpl in H.
    + now injection H as <-.
    + now injection H as <-.
    + inv_bind H. injection H as <-. eauto.
Qed.

(** * The RA-syntax translator *)

Lemma shapeOfNode_updateInfo (f : NodeInfo -> NodeInfo) (n : RANode) :
  shapeOfNode (updateInfo f n) = shapeOfNode n.
Proof. destruct n; reflexivity. Qed.

Lemma shapeOfNode_setAdditionalData (i : astInfo) (node root : RANode) :
  setAdditionalData i node = OK root -> shapeOfNode root = shapeOfNode node.
Proof.
  intros H. apply setAdditionalData_OK in H as [_ ->]. apply shapeOfNode_updateInfo.
Qed.

(** The tree the RA-syntax translator returns has the shape of the AST: one
    tree node per AST node, with the same number of children, in the same
    order. *)
Theorem recRANode_preserves_shape (relations : gmap string (option RelationObject))
  (n : relalgOperation) :
  forall root, recRANode relations n = OK root ->
  shapeOfNode root = shapeOfRelalg n.
Proof.
  induction n; simpl; intros root H.
  - destruct (lookupRelation relations name0) as [[r|m]|]; try discriminate.
    now rewrite (shapeOfNode_setAdditionalData _ _ _ H).
  - destruct (codeInfo i); [|discriminate].
    now rewrite (shapeOfNode_setAdditionalData _ _ _ H).
  - inv_bind H. inv_bind H.
    rewrite (shapeOfNode_setAdditionalData _ _ _ H). simpl. now rewrite (IHn _ E).
  - inv_bind H. inv_bind H.
    rewrite (shapeOfNode_setAdditionalData _ _ _ H). simpl. now rewrite (IHn _ E).
  - inv_bind H.
    rewrite (shapeOfNode_setAdditionalData _ _ _ H). simpl. now rewrite (IHn _ E).
  - inv_bind H.
    rewrite (shapeOfNode_setAdditionalData _ _ _ H). simpl. now rewrite (IHn _ E).
  - inv_bind H. inv_bind H.
    rewrite (shapeOfNode_setAdditionalData _ _ _ H).
    destruct type; simpl; now rewrite (IHn1 _ E), (IHn2 _ E0).
  - inv_bind H.
    rewrite (shapeOfNode_setAdditionalData _ _ _ H). simpl. now rewrite (IHn _ E).
  - inv_bind H.
    rewrite (shapeOfNode_setAdditionalData _ _ _ H). simpl. now rewrite (IHn _ E).
  - inv_bind H. inv_bind H. inv_bind H.
    rewrite (shapeOfNode_setAdditionalData _ _ _ H). simpl.
    now rewrite (IHn1 _ E0), (IHn2 _ E1).
  - inv_bind H. inv_bind H. inv_bind H.
    rewrite (shapeOfNode_setAdditionalData _ _ _ H).
    destruct type; simpl; now rewrite (IHn1 _ E), (IHn2 _ E0).
Qed.

Lemma recRANode_shape_of_selection :
  exists root,
    recRANode catalogR relalgSelection = OK root /\
    shapeOfNode root = unary leaf.
Proof.
  eexists. split; [reflexivity|].
  apply (recRANode_preserves_shape catalogR relalgSelection). reflexivity.
Defined.

(** [sigma a.b > 3 (R)]: every AST node has a position, so has every node
    of the tree. *)
Lemma recRANode_allPositioned_selection :
  exists root,
    recRANode catalogR relalgSelection = OK root /\ allPositioned root = true.
Proof.
  eexists. split; [reflexivity|].
  apply (recRANode_allPositioned catalogR relalgSelection); reflexivity.
Defined.

(** An inline table is translated without the catalog.  Without a position
    the translation fails (the source text of the node is read through the
    position), and so it does when the metadata mapping of the node has an
    own key [hasOwnProperty] (the copy of the metadata throws).  Otherwise
    the result is a relation of the declared name, with one schema column
    per declared column, in order, and the rows as they are; it is marked as
    inline, with the source text of the node as its definition, unless the
    metadata of the node binds these keys itself. *)
Theorem recRANode_table_literal (relations : gmap string (option RelationObject))
  (name : string) (columns : list tableColumn) (rows : list Row) (i : astInfo) :
  recRANode relations (ra_table name columns rows i) =
  match codeInfo i, metaData i with
  | None, _ => Err TypeError
  | Some ci, Some md =>
    if bool_decide (is_Some (md !! "hasOwnProperty")) then Err TypeError
    else
      OK (Relation name
            (map (fun c => mkSchemaColumn (tc_name c) (tc_relAlias c) (tc_type c))
               columns)
            rows
            (mkNodeInfo (Some ci)
               (md ∪ <["inlineRelationDefinition" := LString (text ci)]>
                       (<["isInlineRelation" := LBoolean true]> ∅))
               [] (wrappedInParentheses i)))
  | Some ci, None =>
    OK (Relation name
          (map (fun c => mkSchemaColumn (tc_name c) (tc_relAlias c) (tc_type c))
             columns)
          rows
          (mkNodeInfo (Some ci)
             (<["inlineRelationDefinition" := LString (text ci)]>
                (<["isInlineRelation" := LBoolean true]> ∅))
             [] (wrappedInParentheses i)))
  end.
Proof.
  simpl. destruct (codeInfo i) as [ci|] eqn:Hi; [|reflexivity].
  rewrite setAdditionalData_cases. unfold metaDataCopyable.
  destruct (metaData i) as [md|]; simpl.
  - destruct (bool_decide (is_Some (md !! "hasOwnProperty"))); simpl; [reflexivity|].
    rewrite Hi. destruct (wrappedInParentheses i); reflexivity.
  - rewrite Hi, (left_id_L ∅ (∪)). destruct (wrappedInParentheses i); reflexivity.
Qed.

(** An inline table whose metadata has the own key [hasOwnProperty] is not
    translated. *)
Lemma recRANode_table_with_shadowing_metadata :
  recRANode catalogR (ra_table "T" [mkTableColumn "a" None "number"] [[LNumber 1]]
                        infoShadowing) = Err TypeError.
Proof. reflexivity. Qed.

(** A reference to a name the catalog does not bind to a relation
    ([relations[name]] is [undefined] or an inherited member) aborts the
    whole RA translation as well. *)
Theorem relalg_dangling_reference_aborts_translation
  (relations : gmap string (option RelationObject)) (name : string) :
  (forall r, lookupRelation relations name <> Some (relationValue r)) ->
  forall n, relalgReferences name n -> isOK (recRANode relations n) = false.
Proof.
  intros Hl. induction n; simpl; intros Href.
  - subst name0. destruct (lookupRelation relations name) as [[r|m]|] eqn:E;
      try reflexivity. now destruct (Hl r).
  - contradiction.
  - destruct (recRANode relations n); [|reflexivity].
    specialize (IHn Href). discriminate.
  - destruct (recRANode relations n); [|reflexivity].
    specialize (IHn Href). discriminate.
  - destruct (recRANode relations n); [|reflexivity].
    specialize (IHn Href). discriminate.
  - destruct (recRANode relations n); [|reflexivity].
    specialize (IHn Href). discriminate.
  - destruct (recRANode relations n1); [|reflexivity]. simpl.
    destruct (recRANode relations n2); [|reflexivity].
    destruct Href as [Href|Href]; [specialize (IHn1 Href) | specialize (IHn2 Href)];
      discriminate.
  - destruct (recRANode relations n); [|reflexivity].
    specialize (IHn Href). discriminate.
  - destruct (recRANode relations n); [|reflexivity].
    specialize (IHn Href). discriminate.
  - destruct (recValueExpr arg); [|reflexivity]. simpl.
    destruct (recRANode relations n1); [|reflexivity]. simpl.
    destruct (recRANode relations n2); [|reflexivity].
    destruct Href as [Href|Href]; [specialize (IHn1 Href) | specialize (IHn2 Href)];
      discriminate.
  - destruct (recRANode relations n1); [|reflexivity]. simpl.
    destruct (recRANode relations n2); [|reflexivity].
    destruct Href as [Href|Href]; [specialize (IHn1 Href) | specialize (IHn2 Href)];
      discriminate.
Qed.

Lemma relalg_join_with_ghost_aborts :
  isOK (recRANode catalogR relalgJoinGhost) = false.
Proof.
  apply (relalg_dangling_reference_aborts_translation catalogR "ghost").
  - intros r. vm_compute. discriminate.
  - right. reflexivity.
Defined.

Lemma sql_join_with_ghost_aborts :
  isOK (rec catalogR checkPasses sqlJoinGhost) = false.
Proof.
  apply (dangling_reference_aborts_translation catalogR checkPasses "ghost").
  - intros r. vm_compute. discriminate.
  - right. reflexivity.
Defined.

(** The translation of an AST depends on the catalog through the relations
    the AST refers to only: two catalogs that agree on these names give the
    same result. *)
Theorem recRANode_depends_on_referenced_relations
  (R1 R2 : gmap string (option RelationObject)) (n : relalgOperation) :
  (forall name, relalgReferences name n ->
                lookupRelation R1 name = lookupRelation R2 name) ->
  recRANode R1 n = recRANode R2 n.
Proof.
  induction n; simpl; intros Hext;
    rewrite ?IHn, ?IHn1, ?IHn2 by auto; try reflexivity.
  rewrite (Hext name0 eq_refl). reflexivity.
Qed.

Lemma recRANode_same_with_unrelated_ghost :
  recRANode catalogR relalgSelection = recRANode catalogUndefined relalgSelection.
Proof.
  apply (recRANode_depends_on_referenced_relations catalogR catalogUndefined
           relalgSelection).
  intros name Href. simpl in Href. subst name. reflexivity.
Defined.

(** The same holds for the SQL-syntax translator. *)
Theorem rec_depends_on_referenced_relations
  (R1 R2 : gmap string (option RelationObject)) (check : RANode -> result unit)
  (n : astNode) :
  (forall name, referencesRelation name n ->
                lookupRelation R1 name = lookupRelation R2 name) ->
  rec R1 check n = rec R2 check n.
Proof.
  induction n using astNode_from_ind; simpl; intros Hext;
    rewrite ?IHn, ?IHn1, ?IHn2 by auto; try reflexivity.
  - rewrite (Hext name0 eq_refl). reflexivity.
  - unfold parseStatement, parseStatement_from. rewrite IHn by auto. reflexivity.
Qed.

Lemma rec_same_with_unrelated_ghost :
  rec catalogR checkPasses (sql_statement selectAliased info1) =
  rec catalogUndefined checkPasses (sql_statement selectAliased info1).
Proof.
  apply (rec_depends_on_referenced_relations catalogR catalogUndefined checkPasses
           (sql_statement selectAliased info1)).
  intros name Href. simpl in Href. subst name. reflexivity.
Defined.

(** * The SQL-syntax translator *)

(** The epilogue of [rec]: the node is given the position of the AST node,
    and the flag when the AST node has it. *)
Lemma rec_epilogue (node root : RANode) (i : astInfo) :
  setCodeInfoFromNode
    (if wrappedInParentheses i then setWrappedInParentheses node true else node)
    (codeInfo i) = OK root ->
  exists ci,
    codeInfo i = Some ci /\
    root = updateInfo (fun x =>
             mkNodeInfo (Some ci) (n_metaData x) (n_warnings x)
               (if wrappedInParentheses i then true else n_wrappedInParentheses x))
             node.
Proof.
  intros H. apply setCodeInfoFromNode_OK in H as (ci & Hi & ->).
  exists ci. split; [exact Hi|].
  unfold setCodeInfoObject, setWrappedInParentheses.
  destruct (wrappedInParentheses i); [rewrite updateInfo_updateInfo|]; reflexivity.
Qed.

Lemma rec_OK_root (relations : gmap string (option RelationObject))
  (check : RANode -> result unit) (n : astNode) (root : RANode) :
  rec relations check n = OK root ->
  exists node ci,
    codeInfo (astNodeInfo n) = Some ci /\
    root = updateInfo (fun x =>
             mkNodeInfo (Some ci) (n_metaData x) (n_warnings x)
               (if wrappedInParentheses (astNodeInfo n) then true
                else n_wrappedInParentheses x))
             node.
Proof.
  intros H.
  destruct n; simpl in H; try discriminate; inv_bind H;
    apply rec_epilogue in H as (ci & Hi & ->); eauto.
Qed.

(** Every node the SQL-syntax translator returns carries the position of
    the AST node it was called on, and is parenthesised when the AST node
    is; an AST node without position is never translated, whatever its
    type. *)
Theorem rec_root_carries_position_of_ast_node
  (relations : gmap string (option RelationObject)) (check : RANode -> result unit)
  (n : astNode) (root : RANode) :
  rec relations check n = OK root ->
  n_codeInfo (nodeInfo root) = codeInfo (astNodeInfo n) /\
  codeInfo (astNodeInfo n) <> None /\
  (wrappedInParentheses (astNodeInfo n) = true ->
   n_wrappedInParentheses (nodeInfo root) = true).
Proof.
  intros H. apply rec_OK_root in H as (node & ci & Hi & ->).
  rewrite nodeInfo_updateInfo, Hi. simpl. split; [reflexivity|].
  split; [discriminate|]. now intros ->.
Qed.

Lemma rec_root_position_of_order_by :
  exists root,
    rec catalogR checkPasses sqlOrderBy = OK root /\
    n_codeInfo (nodeInfo root) = codeInfo (astNodeInfo sqlOrderBy) /\
    codeInfo (astNodeInfo sqlOrderBy) <> None /\
    (wrappedInParentheses (astNodeInfo sqlOrderBy) = true ->
     n_wrappedInParentheses (nodeInfo root) = true).
Proof.
  eexists. split; [reflexivity|].
  apply (rec_root_carries_position_of_ast_node catalogR checkPasses sqlOrderBy).
  reflexivity.
Defined.

(** [ALL] on a set operator changes nothing but the warnings: the tree is
    the one of the operator without [ALL], which has no warning at its root,
    with the ignored-ALL warning, at the position of the operator, added to
    its root. *)
Theorem setOperator_all_only_adds_warning
  (relations : gmap string (option RelationObject)) (check : RANode -> result unit)
  (type : setOperator) (child child2 : astNode) (i : astInfo) (root : RANode) :
  rec relations check (sql_setOperator type child child2 false i) = OK root ->
  rec relations check (sql_setOperator type child child2 true i) =
    OK (addWarning root
          (mkMessage "db.messages.translate.warning-ignored-all-on-set-operators" [])
          (codeInfo i)) /\
  n_warnings (nodeInfo root) = [].
Proof.
  simpl. destruct (rec relations check child) as [c1|]; [|discriminate]. simpl.
  destruct (rec relations check child2) as [c2|]; [|discriminate]. simpl.
  destruct (codeInfo i) as [ci|]; [|destruct (wrappedInParentheses i); discriminate].
  destruct type, (wrappedInParentheses i); simpl; intros H; injection H as <-;
    split; reflexivity.
Qed.

Lemma union_all_only_adds_warning :
  exists root,
    rec catalogR checkPasses (sqlUnion false) = OK root /\
    rec catalogR checkPasses (sqlUnion true) =
      OK (addWarning root
            (mkMessage "db.messages.translate.warning-ignored-all-on-set-operators" [])
            (codeInfo info1)) /\
    n_warnings (nodeInfo root) = [].
Proof.
  eexists. split; [reflexivity|].
  apply (setOperator_all_only_adds_warning catalogR checkPasses union fromR fromR info1).
  reflexivity.
Defined.

Lemma lookup_map {A B : Type} (f : A -> B) (l : list A) (k : nat) :
  map f l !! k = f <$> (l !! k).
Proof.
  revert k. induction l as [|x l IH]; intros [|k]; simpl; try reflexivity. apply IH.
Qed.

(** ORDER BY is translated to two parallel lists, the columns and the
    directions, with one entry per item of the clause, in its order. *)
Theorem rec_orderBy_parallel_lists
  (relations : gmap string (option RelationObject)) (check : RANode -> result unit)
  (child : astNode) (arg : list orderByArg) (i : astInfo) (root : RANode) :
  rec relations check (sql_orderBy child arg i) = OK root ->
  exists c orderCols orderAsc info,
    rec relations check child = OK c /\
    root = OrderBy c orderCols orderAsc info /\
    length orderCols = length arg /\ length orderAsc = length arg /\
    (forall (k : nat) (e : orderByArg),
       arg !! k = Some e ->
       orderCols !! k = Some (mkColumn (name (col e)) (relAlias (col e))) /\
       orderAsc !! k = Some (asc e)).
Proof.
  simpl. intros H. inv_bind H. inv_bind E. injection E as <-.
  apply rec_epilogue in H as (ci & _ & ->). simpl.
  eexists _, _, _, _. split; [exact E0|]. split; [reflexivity|].
  unfold orderColsOf, orderAscOf. rewrite !length_map.
  split; [reflexivity|]. split; [reflexivity|].
  intros k e Hk. rewrite !lookup_map, Hk. split; reflexivity.
Qed.

Lemma rec_orderBy_a_asc_b_desc :
  rec catalogR checkPasses sqlOrderBy =
    OK (OrderBy (setCodeInfoObject (copy relR) (Some ci0))
          [mkColumn "a" None; mkColumn "b" (Some "R")] [true; false]
          (mkNodeInfo (Some ci1) ∅ [] false)) /\
  exists c orderCols orderAsc info,
    rec catalogR checkPasses fromR = OK c /\
    OrderBy (setCodeInfoObject (copy relR) (Some ci0))
      [mkColumn "a" None; mkColumn "b" (Some "R")] [true; false]
      (mkNodeInfo (Some ci1) ∅ [] false) = OrderBy c orderCols orderAsc info /\
    length orderCols = 2%nat /\ length orderAsc = 2%nat /\
    (forall (k : nat) (e : orderByArg),
       [mkOrderByArg true (mkColumnName "a" None);
        mkOrderByArg false (mkColumnName "b" (Some "R"))] !! k = Some e ->
       orderCols !! k = Some (mkColumn (name (col e)) (relAlias (col e))) /\
       orderAsc !! k = Some (asc e)).
Proof.
  split; [reflexivity|].
  apply (rec_orderBy_parallel_lists catalogR checkPasses fromR
           [mkOrderByArg true (mkColumnName "a" None);
            mkOrderByArg false (mkColumnName "b" (Some "R"))] info1).
  reflexivity.
Defined.

(** ** The stages of a statement *)

Lemma projectionsOf_entries (args : list projectionArg) :
  forall ps b,
  projectionsOf args = OK (ps, b) ->
  length ps = length args /\
  (forall (k : nat) (arg : projectionArg),
     args !! k = Some arg ->
     match arg with
     | sel_aggFunction a => ps !! k = Some (projColumn (mkColumn (agg_name a) None))
     | sel_column nm ra _ => ps !! k = Some (projColumn (mkColumn nm ra))
     | sel_namedColumnExpr nm ra child =>
       exists e, recValueExpr child = OK e /\ ps !! k = Some (projExpr nm ra e)
     | sel_other _ => False
     end).
Proof.
  induction args as [|c rest IH]; intros ps b H; simpl in H.
  - injection H as <- _. split; [reflexivity|]. intros k arg Hk. discriminate.
  - inv_bind H. inv_bind H. destruct r0 as [ps' b']. injection H as <- _.
    destruct (IH ps' b' E0) as [Hlen Hrest]. split; [simpl; now rewrite Hlen|].
    intros [|k] arg Hk; simpl in Hk.
    + injection Hk as <-.
      destruct c as [a|nm ra ch|nm ra al|ty]; simpl in E.
      * injection E as <-. reflexivity.
      * inv_bind E. injection E as <-. eauto.
      * injection E as <-. reflexivity.
      * discriminate.
    + simpl. exact (Hrest k arg Hk).
Qed.

(** When the SELECT list is not the bare wildcard, the projection stage
    puts on its root a Projection with one entry per item of the list, in
    order: an aggregate function is projected as the column of its name
    without relation alias, a plain column as that column (the alias plays
    no part), a named expression with its name, relation alias and the
    translated expression. *)
Theorem projection_stage_one_entry_per_item (s : statement) (root out : RANode)
  (colsRenamed : bool) :
  isBareWildcard (sel_arg (select s)) = false ->
  parseStatement_projection s root = OK (out, colsRenamed) ->
  exists columns info,
    out = Projection root columns info /\
    n_codeInfo info = sel_codeInfo (select s) /\
    length columns = length (sel_arg (select s)) /\
    (forall (k : nat) (arg : projectionArg),
       sel_arg (select s) !! k = Some arg ->
       match arg with
       | sel_aggFunction a =>
         columns !! k = Some (projColumn (mkColumn (agg_name a) None))
       | sel_column nm ra _ => columns !! k = Some (projColumn (mkColumn nm ra))
       | sel_namedColumnExpr nm ra child =>
         exists e, recValueExpr child = OK e /\
                   columns !! k = Some (projExpr nm ra e)
       | sel_other _ => False
       end).
Proof.
  intros Hw H. unfold parseStatement_projection in H. rewrite Hw in H.
  inv_bind H. inv_bind H. destruct r as [ps b]. simpl in *.
  apply setCodeInfoFromNode_OK in E0 as (ci & Hci & ->).
  injection H as <- _. destruct (projectionsOf_entries _ _ _ E) as [Hlen Hent].
  eexists _, _. split; [reflexivity|]. simpl. rewrite Hci.
  split; [reflexivity|]. split; [exact Hlen | exact Hent].
Qed.

Lemma projection_stage_of_select_aliased :
  exists columns info,
    Projection (copy relR)
      [projColumn (mkColumn "a" None); projColumn (mkColumn "b" None)]
      (mkNodeInfo (Some ci2) ∅ [] false) = Projection (copy relR) columns info /\
    n_codeInfo info = sel_codeInfo (select selectAliased) /\
    length columns = length (sel_arg (select selectAliased)) /\
    (forall (k : nat) (arg : projectionArg),
       sel_arg (select selectAliased) !! k = Some arg ->
       match arg with
       | sel_aggFunction a =>
         columns !! k = Some (projColumn (mkColumn (agg_name a) None))
       | sel_column nm ra _ => columns !! k = Some (projColumn (mkColumn nm ra))
       | sel_namedColumnExpr nm ra child =>
         exists e, recValueExpr child = OK e /\
                   columns !! k = Some (projExpr nm ra e)
       | sel_other _ => False
       end).
Proof.
  apply (projection_stage_one_entry_per_item selectAliased (copy relR) _ true);
    reflexivity.
Defined.

Lemma projectionsOf_isOK (args : list projectionArg) :
  isOK (projectionsOf args) = forallb entryProjectable args.
Proof.
  induction args as [|c rest IH]; [reflexivity|]. simpl.
  destruct c as [a|nm ra ch|nm ra al|ty]; simpl; try reflexivity.
  - destruct (projectionsOf rest); simpl in *; exact IH.
  - destruct (recValueExpr ch); simpl; [|reflexivity].
    destruct (projectionsOf rest); simpl in *; exact IH.
  - destruct (projectionsOf rest); simpl in *; exact IH.
Qed.

(** The projection stage never fails on the bare wildcard, not even when the
    SELECT clause has no position; on any other list it succeeds exactly when
    the clause has a position, no entry has an unknown type and the
    expression of every named expression translates. *)
Theorem projection_stage_succeeds_iff (s : statement) (root : RANode) :
  isOK (parseStatement_projection s root) =
  isBareWildcard (sel_arg (select s))
  || (forallb entryProjectable (sel_arg (select s))
      && match sel_codeInfo (select s) with Some _ => true | None => false end).
Proof.
  unfold parseStatement_projection.
  destruct (isBareWildcard (sel_arg (select s))); [reflexivity|]. simpl.
  rewrite <- projectionsOf_isOK.
  destruct (projectionsOf (sel_arg (select s))); simpl; [|reflexivity].
  destruct (sel_codeInfo (select s)); reflexivity.
Qed.

(** The grouping stage leaves its root as it is exactly when the statement
    has no GROUP BY clause and declares no aggregation column, whatever the
    SELECT list holds: aggregate functions in the list do not bring a GroupBy
    about by themselves. *)
Theorem grouping_stage_skipped_iff (s : statement) (root : RANode) :
  parseStatement_groupBy s root = root <->
  groupBy s = None /\ numAggregationColumns s <= 0.
Proof.
  unfold parseStatement_groupBy.
  destruct (bool_decide (groupBy s <> None) || (0 <? numAggregationColumns s)) eqn:Hg.
  - split.
    + intros H. exfalso.
      destruct (0 <? length (aggregateFunctionsOf (sel_arg (select s))))%nat;
        apply (f_equal height) in H; simpl in H; lia.
    + intros [Hgb Hn]. exfalso. apply orb_prop in Hg as [Hg|Hg].
      * apply bool_decide_eq_true_1 in Hg. contradiction.
      * apply Z.ltb_lt in Hg. lia.
  - apply orb_false_elim in Hg as [Hg Hn]. split; [|reflexivity]. intros _.
    apply bool_decide_eq_false_1 in Hg. apply Z.ltb_ge in Hn. split; [|exact Hn].
    destruct (groupBy s); [|reflexivity]. exfalso. apply Hg. discriminate.
Qed.

(** [rec] has positioned the root of the FROM clause already: positioning it
    again in the FROM stage changes nothing, the stage is the self-check. *)
Lemma parseStatement_from_is_check (relations : gmap string (option RelationObject))
  (check : RANode -> result unit) (s : statement) (f : RANode) :
  rec relations check (from s) = OK f ->
  parseStatement_from check (rec relations check) s = (do_ check f; OK f).
Proof.
  intros H. unfold parseStatement_from. rewrite H. simpl.
  apply rec_OK_root in H as (node & ci & Hi & ->). rewrite Hi. simpl.
  unfold setCodeInfoObject. rewrite updateInfo_updateInfo. reflexivity.
Qed.

(** The self-check of the FROM clause comes before everything else in a
    statement: when it rejects the translated FROM clause, the statement
    fails with the error of the check, whatever WHERE, GROUP BY, HAVING and
    the SELECT list are. *)
Theorem rejected_from_clause_aborts_statement
  (relations : gmap string (option RelationObject)) (check : RANode -> result unit)
  (s : statement) (i : astInfo) (f : RANode) (e : TranslateError) :
  rec relations check (from s) = OK f ->
  check f = Err e ->
  rec relations check (sql_statement s i) = Err e.
Proof.
  intros Hf He. simpl. unfold parseStatement.
  rewrite (parseStatement_from_is_check _ _ _ _ Hf), He. reflexivity.
Qed.

Lemma rejected_from_clause_of_select_full :
  rec catalogR checkRejects (sql_statement selectFull info1) = Err schemaConflict.
Proof.
  apply (rejected_from_clause_aborts_statement catalogR checkRejects selectFull info1
           (setCodeInfoObject (copy relR) (Some ci0)) schemaConflict); reflexivity.
Defined.

Lemma parseStatement_condition_Some (check : RANode -> result unit)
  (c : conditionClause) (root out : RANode) :
  parseStatement_condition check (Some c) root = OK out ->
  exists cond ci,
    check root = OK tt /\ recValueExpr (cl_arg c) = OK cond /\
    cl_codeInfo c = Some ci /\
    out = Selection root cond (mkNodeInfo (Some ci) ∅ [] false).
Proof.
  simpl. intros H. inv_bind H. unfold getSelection in E.
  inv_bind E. inv_bind E. injection E as <-.
  apply setCodeInfoFromNode_OK in H as (ci & Hci & ->).
  destruct r0. eexists _, ci. repeat split; eauto.
Qed.

(** The clauses of a statement are composed in the order FROM, WHERE, GROUP
    BY, HAVING, SELECT: for a statement with all of them that aggregates, the
    tree is the Projection (possibly under the RenameColumns layer) on the
    Selection of HAVING, on the GroupBy, on the Selection of WHERE, on the
    translated FROM clause; each Selection has the position of its clause,
    not of its expression, and its condition is the translated expression
    of the clause. *)
Theorem statement_layers_in_clause_order
  (relations : gmap string (option RelationObject)) (check : RANode -> result unit)
  (s : statement) (w h : conditionClause) (root : RANode) :
  where_ s = Some w ->
  having s = Some h ->
  groupBy s <> None \/ 0 < numAggregationColumns s ->
  (exists a, sel_aggFunction a ∈ sel_arg (select s)) ->
  parseStatement check (rec relations check) s = OK root ->
  exists f cw ch ciw cih,
    rec relations check (from s) = OK f /\
    recValueExpr (cl_arg w) = OK cw /\ cl_codeInfo w = Some ciw /\
    recValueExpr (cl_arg h) = OK ch /\ cl_codeInfo h = Some cih /\
    let selection1 := Selection f cw (mkNodeInfo (Some ciw) ∅ [] false) in
    let grouping :=
      GroupBy selection1 (default [] (groupBy s))
        (aggregateFunctionsOf (sel_arg (select s))) newNodeInfo in
    let selection2 := Selection grouping ch (mkNodeInfo (Some cih) ∅ [] false) in
    ProjectionOver selection2 root \/ RenameOverProjection selection2 root.
Proof.
  intros Hw Hh Hguard Hagg H. rewrite parseStatement_stages in H. inv_bind H.
  rename r into pre. unfold stagesBeforeProjection in E. inv_bind E.
  rename r into r1. unfold stagesBeforeGroupBy in E0. inv_bind E0.
  rename r into f'. rewrite Hw in E0. rewrite Hh in E.
  rewrite (parseStatement_groupBy_aggregate s r1 Hguard Hagg) in E.
  apply parseStatement_condition_Some in E0 as (cw & ciw & _ & Hcw & Hciw & ->).
  apply parseStatement_condition_Some in E as (ch & cih & _ & Hch & Hcih & ->).
  destruct (rec relations check (from s)) as [f|e] eqn:Hf;
    [|unfold parseStatement_from in E1; rewrite Hf in E1; discriminate].
  rewrite (parseStatement_from_is_check _ _ _ _ Hf) in E1.
  inv_bind E1. injection E1 as <-.
  exists f, cw, ch, ciw, cih. repeat (split; [assumption || reflexivity|]).
  apply projection_rename_cases in H. simpl in H.
  rewrite (aggregate_not_bare_wildcard _ Hagg) in H.
  destruct H as [[Hf' _] | [(_ & _ & cols & ci & _ & ->) | (_ & _ & cols & ci & _ & ->)]].
  - discriminate.
  - left. eexists _, _. reflexivity.
  - right. eexists _, _, _, _. reflexivity.
Qed.

Lemma statement_layers_of_select_full :
  parseStatement checkPasses (rec catalogR checkPasses) selectFull
    = OK treeOfSelectFull /\
  exists f cw ch ciw cih,
    rec catalogR checkPasses (from selectFull) = OK f /\
    recValueExpr (cl_arg whereClause) = OK cw /\ cl_codeInfo whereClause = Some ciw /\
    recValueExpr (cl_arg havingClause) = OK ch /\ cl_codeInfo havingClause = Some cih /\
    let selection1 := Selection f cw (mkNodeInfo (Some ciw) ∅ [] false) in
    let grouping :=
      GroupBy selection1 (default [] (groupBy selectFull))
        (aggregateFunctionsOf (sel_arg (select selectFull))) newNodeInfo in
    let selection2 := Selection grouping ch (mkNodeInfo (Some cih) ∅ [] false) in
    ProjectionOver selection2 treeOfSelectFull \/
    RenameOverProjection selection2 treeOfSelectFull.
Proof.
  split; [reflexivity|].
  apply (statement_layers_in_clause_order catalogR checkPasses selectFull
           whereClause havingClause treeOfSelectFull).
  - reflexivity.
  - reflexivity.
  - left. discriminate.
  - eexists. left.
  - reflexivity.
Defined.

(** ** What a tree translated from SQL is made of *)

Lemma nodes_cons (n : RANode) : nodes n = n :: tail (nodes n).
Proof. destruct n; reflexivity. Qed.

Lemma sqlTreeNode_updateInfo (relations : gmap string (option RelationObject))
  (f : NodeInfo -> NodeInfo) (x : RANode) :
  sqlTreeNode relations x -> sqlTreeNode relations (updateInfo f x).
Proof. destruct x; simpl; trivial. Qed.

Lemma sqlTree_updateInfo (relations : gmap string (option RelationObject))
  (f : NodeInfo -> NodeInfo) (x : RANode) :
  Forall (sqlTreeNode relations) (nodes x) ->
  Forall (sqlTreeNode relations) (nodes (updateInfo f x)).
Proof.
  rewrite nodes_updateInfo, (nodes_cons x), !Forall_cons.
  intros [H1 H2]. split; [now apply sqlTreeNode_updateInfo | exact H2].
Qed.

Lemma sqlTree_condition (relations : gmap string (option RelationObject))
  (check : RANode -> result unit) (clause : option conditionClause)
  (root out : RANode) :
  parseStatement_condition check clause root = OK out ->
  Forall (sqlTreeNode relations) (nodes root) ->
  Forall (sqlTreeNode relations) (nodes out).
Proof.
  destruct clause as [c|]; intros H Hroot.
  - apply parseStatement_condition_Some in H as (cond & ci & _ & _ & _ & ->).
    simpl. apply Forall_cons. split; [exact I | exact Hroot].
  - simpl in H. now injection H as <-.
Qed.

Lemma sqlTree_groupBy (relations : gmap string (option RelationObject))
  (s : statement) (root : RANode) :
  Forall (sqlTreeNode relations) (nodes root) ->
  Forall (sqlTreeNode relations) (nodes (parseStatement_groupBy s root)).
Proof.
  intros Hroot. unfold parseStatement_groupBy.
  destruct (bool_decide (groupBy s <> None) || (0 <? numAggregationColumns s));
    [|exact Hroot].
  destruct (0 <? length (aggregateFunctionsOf (sel_arg (select s))))%nat; simpl;
    apply Forall_cons; (split; [exact I | exact Hroot]).
Qed.

Lemma sqlTree_statement (relations : gmap string (option RelationObject))
  (check : RANode -> result unit) (s : statement) (root : RANode) :
  (forall f, rec relations check (from s) = OK f ->
             Forall (sqlTreeNode relations) (nodes f)) ->
  parseStatement check (rec relations check) s = OK root ->
  Forall (sqlTreeNode relations) (nodes root).
Proof.
  intros IH H. rewrite parseStatement_stages in H. inv_bind H. rename r into pre.
  assert (Hpre : Forall (sqlTreeNode relations) (nodes pre)).
  { unfold stagesBeforeProjection in E. inv_bind E.
    apply (sqlTree_condition _ _ _ _ _ E), sqlTree_groupBy.
    unfold stagesBeforeGroupBy in E0. inv_bind E0.
    apply (sqlTree_condition _ _ _ _ _ E0).
    destruct (rec relations check (from s)) as [f|e] eqn:Hf;
      [|unfold parseStatement_from in E1; rewrite Hf in E1; discriminate].
    rewrite (parseStatement_from_is_check _ _ _ _ Hf) in E1.
    inv_bind E1. injection E1 as <-. now apply IH. }
  apply projection_rename_cases in H. simpl in H.
  destruct H as [[_ ->] | [(_ & _ & cols & ci & _ & ->) | (_ & _ & cols & ci & _ & ->)]].
  - exact Hpre.
  - simpl. apply Forall_cons. split; [exact I | exact Hpre].
  - simpl. apply Forall_cons. split; [exact I|].
    apply Forall_cons. split; [exact I | exact Hpre].
Qed.

(** Every leaf of a tree translated from SQL is a relation of the catalog,
    with the name, the schema and the rows the catalog has for it; and the
    tree contains no semi-join, no anti-join and no division, which the SQL
    grammar has no construct for. *)
Theorem rec_tree_is_made_of_catalog_relations
  (relations : gmap string (option RelationObject)) (check : RANode -> result unit)
  (n : astNode) :
  forall root, rec relations check n = OK root ->
  forall x, x ∈ nodes root -> sqlTreeNode relations x.
Proof.
  assert (H : forall root, rec relations check n = OK root ->
                           Forall (sqlTreeNode relations) (nodes root)).
  { induction n using astNode_from_ind; intros root H; simpl in H;
      try discriminate; inv_bind H; apply rec_epilogue in H as (ci & _ & ->);
      apply sqlTree_updateInfo.
    - destruct (lookupRelation relations name0) as [[obj|m]|] eqn:Hl;
        try discriminate.
      assert (Hcopy : sqlTreeNode relations (copy obj)).
      { simpl. exists name0, obj. auto. }
      destruct relAlias0; injection E as <-; simpl; repeat constructor; exact Hcopy.
    - inv_bind E. injection E as <-.
      apply (sqlTree_statement _ _ _ _ IHn) in E0.
      destruct (distinct (select s)); simpl; [exact E0|].
      now apply sqlTree_updateInfo.
    - inv_bind E. injection E as <-. simpl. apply Forall_cons. split; [exact I|].
      now apply IHn.
    - inv_bind E. injection E as <-. simpl. apply Forall_cons. split; [exact I|].
      now apply IHn.
    - inv_bind E. inv_bind E. inv_bind E. injection E as <-.
      destruct ty; simpl; apply Forall_cons; (split; [exact I|]);
        apply Forall_app; split; [now apply IHn1 | now apply IHn2 | now apply IHn1
                                  | now apply IHn2 | now apply IHn1 | now apply IHn2
                                  | now apply IHn1 | now apply IHn2].
    - inv_bind E. inv_bind E. injection E as <-. simpl.
      apply Forall_cons. split; [exact I|].
      apply Forall_app; split; [now apply IHn1 | now apply IHn2].
    - inv_bind E. inv_bind E. injection E as <-. simpl.
      apply Forall_cons. split; [exact I|].
      apply Forall_app; split; [now apply IHn1 | now apply IHn2].
    - inv_bind E. inv_bind E. injection E as <-.
      assert (Hn : forall x : RANode,
                 sqlTreeNode relations x ->
                 Forall (sqlTreeNode relations) (tail (nodes x)) ->
                 Forall (sqlTreeNode relations) (nodes x)).
      { intros x Hx Ht. rewrite nodes_cons. apply Forall_cons. now split. }
      assert (Hc : Forall (sqlTreeNode relations) (nodes r0 ++ nodes r1)).
      { apply Forall_app; split; [now apply IHn1 | now apply IHn2]. }
      destruct ty, all; simpl; apply Forall_cons; (split; [exact I | exact Hc]).
    - inv_bind E. injection E as <-. simpl. apply Forall_cons. split; [exact I|].
      now apply IHn.
    - destruct (l =? -1); inv_bind E; injection E as <-; simpl;
        apply Forall_cons; (split; [exact I|]); now apply IHn. }
  intros root Hroot x Hx. specialize (H root Hroot).
  rewrite Forall_forall in H. now apply H.
Qed.

Lemma rec_tree_of_select_full :
  exists root,
    rec catalogR checkPasses (sql_statement selectFull info1) = OK root /\
    forall x, x ∈ nodes root -> sqlTreeNode catalogR x.
Proof.
  eexists. split; [reflexivity|].
  apply (rec_tree_is_made_of_catalog_relations catalogR checkPasses
           (sql_statement selectFull info1)).
  reflexivity.
Defined.

(** * More on the RA-syntax translator *)

Lemma relalgProjectionsOf_entries (arg : list relalgProjectionArg) :
  forall ps,
  relalgProjectionsOf arg = OK ps ->
  length ps = length arg /\
  (forall (k : nat) (el : relalgProjectionArg),
     arg !! k = Some el ->
     match el with
     | ra_columnName nm ra => ps !! k = Some (projColumn (mkColumn nm ra))
     | ra_namedColumnExpr nm ra child =>
       exists e, recValueExpr child = OK e /\ ps !! k = Some (projExpr nm ra e)
     | ra_otherArg _ => False
     end).
Proof.
  induction arg as [|c rest IH]; intros ps H; simpl in H.
  - injection H as <-. split; [reflexivity|]. intros k el Hk. discriminate.
  - inv_bind H. inv_bind H. injection H as <-.
    destruct (IH _ E0) as [Hlen Hrest]. split; [simpl; now rewrite Hlen|].
    intros [|k] el Hk; simpl in Hk.
    + injection Hk as <-. destruct c as [nm ra|nm ra ch|ty]; simpl in E.
      * injection E as <-. reflexivity.
      * inv_bind E. injection E as <-. eauto.
      * discriminate.
    + simpl. exact (Hrest k el Hk).
Qed.

(** A projection of the RA syntax is translated to a Projection on the
    translated child with one entry per item of the list, in order: a
    column, or a named expression with its translated expression. *)
Theorem recRANode_projection_one_entry_per_item
  (relations : gmap string (option RelationObject))
  (child : relalgOperation) (arg : list relalgProjectionArg) (i : astInfo)
  (root : RANode) :
  recRANode relations (ra_projection child arg i) = OK root ->
  exists c columns info,
    recRANode relations child = OK c /\
    root = Projection c columns info /\
    length columns = length arg /\
    (forall (k : nat) (el : relalgProjectionArg),
       arg !! k = Some el ->
       match el with
       | ra_columnName nm ra => columns !! k = Some (projColumn (mkColumn nm ra))
       | ra_namedColumnExpr nm ra ch =>
         exists e, recValueExpr ch = OK e /\ columns !! k = Some (projExpr nm ra e)
       | ra_otherArg _ => False
       end).
Proof.
  simpl. intros H. inv_bind H. inv_bind H.
  destruct (relalgProjectionsOf_entries _ _ E0) as [Hlen Hent].
  apply setAdditionalData_OK in H as [_ ->]. simpl.
  eexists _, _, _. split; [exact E|]. split; [reflexivity|]. split; assumption.
Qed.

Lemma recRANode_projection_of_a_and_x :
  exists root c columns info,
    recRANode catalogR relalgProjection = OK root /\
    recRANode catalogR relalgR = OK c /\
    root = Projection c columns info /\
    length columns = 2%nat /\
    (forall (k : nat) (el : relalgProjectionArg),
       [ra_columnName "a" None; ra_namedColumnExpr "x" None exprGreater] !! k = Some el ->
       match el with
       | ra_columnName nm ra => columns !! k = Some (projColumn (mkColumn nm ra))
       | ra_namedColumnExpr nm ra ch =>
         exists e, recValueExpr ch = OK e /\ columns !! k = Some (projExpr nm ra e)
       | ra_otherArg _ => False
       end).
Proof.
  assert (H : exists root, recRANode catalogR relalgProjection = OK root)
    by (eexists; reflexivity).
  destruct H as [root H]. exists root.
  destruct (recRANode_projection_one_entry_per_item catalogR relalgR
              [ra_columnName "a" None; ra_namedColumnExpr "x" None exprGreater]
              info1 root H) as (c & columns & info & Hc & Hroot & Hrest).
  exists c, columns, info. split; [exact H|]. split; [exact Hc|].
  split; [exact Hroot | exact Hrest].
Defined.

Lemma relalgProjectionsOf_isOK (arg : list relalgProjectionArg) :
  isOK (relalgProjectionsOf arg) = forallb relalgEntryProjectable arg.
Proof.
  induction arg as [|c rest IH]; [reflexivity|]. simpl.
  destruct c as [nm ra|nm ra ch|ty]; simpl; try reflexivity.
  - destruct (relalgProjectionsOf rest); simpl in *; exact IH.
  - rewrite <- recValueExpr_isOK. destruct (recValueExpr ch); simpl; [|reflexivity].
    destruct (relalgProjectionsOf rest); simpl in *; exact IH.
Qed.

Lemma setAdditionalData_isOK (i : astInfo) (node : RANode) :
  isOK (setAdditionalData i node) = metaDataCopyable i.
Proof.
  rewrite setAdditionalData_cases. destruct (metaDataCopyable i); reflexivity.
Qed.

(** The RA-syntax translator fails for five reasons only: a reference to a
    name for which [relations[name]] is not a relation, an inline table
    without position, an expression that is not translatable, a projection
    entry of unknown type, a metadata mapping with an own key
    [hasOwnProperty].  In particular a missing position makes no other node
    fail. *)
Theorem recRANode_succeeds_iff_translatable
  (relations : gmap string (option RelationObject)) (n : relalgOperation) :
  (exists root, recRANode relations n = OK root) <->
  relalgTranslatable relations n = true.
Proof.
  assert (H : isOK (recRANode relations n) = relalgTranslatable relations n).
  { induction n; simpl; rewrite <- ?IHn, <- ?IHn1, <- ?IHn2.
    - destruct (lookupRelation relations name0) as [[r|m]|]; simpl;
        rewrite ?setAdditionalData_isOK; destruct (metaDataCopyable i); reflexivity.
    - destruct (codeInfo i); simpl;
        rewrite ?setAdditionalData_isOK; destruct (metaDataCopyable i); reflexivity.
    - rewrite <- recValueExpr_isOK.
      destruct (recRANode relations n); simpl;
        [destruct (recValueExpr arg); simpl; rewrite ?setAdditionalData_isOK|];
        destruct (metaDataCopyable i); reflexivity.
    - rewrite <- relalgProjectionsOf_isOK.
      destruct (recRANode relations n); simpl;
        [destruct (relalgProjectionsOf arg); simpl; rewrite ?setAdditionalData_isOK|];
        destruct (metaDataCopyable i); reflexivity.
    - destruct (recRANode relations n); simpl; rewrite ?setAdditionalData_isOK;
        destruct (metaDataCopyable i); reflexivity.
    - destruct (recRANode relations n); simpl; rewrite ?setAdditionalData_isOK;
        destruct (metaDataCopyable i); reflexivity.
    - destruct (recRANode relations n1); simpl;
        [destruct (recRANode relations n2); simpl; rewrite ?setAdditionalData_isOK|];
        destruct (metaDataCopyable i); reflexivity.
    - destruct (recRANode relations n); simpl; rewrite ?setAdditionalData_isOK;
        destruct (metaDataCopyable i); reflexivity.
    - destruct (recRANode relations n); simpl; rewrite ?setAdditionalData_isOK;
        destruct (metaDataCopyable i); reflexivity.
    - rewrite <- recValueExpr_isOK.
      destruct (recValueExpr arg); simpl;
        [destruct (recRANode relations n1); simpl;
         [destruct (recRANode relations n2); simpl; rewrite ?setAdditionalData_isOK|]|];
        destruct (metaDataCopyable i); reflexivity.
    - destruct (recRANode relations n1); simpl;
        [destruct (recRANode relations n2); simpl|];
        [destruct arg as [|cols|x]; simpl;
         [| |rewrite <- recValueExpr_isOK; destruct (recValueExpr x); simpl];
         rewrite ?setAdditionalData_isOK| |];
        destruct (metaDataCopyable i); reflexivity. }
  rewrite <- H. destruct (recRANode relations n) as [root|e]; simpl.
  - split; [reflexivity | eauto].
  - split; [intros [root Hr]; discriminate | discriminate].
Qed.

(** A relation reference whose metadata mapping has the own key
    [hasOwnProperty] is not translated. *)
Lemma recRANode_relation_with_shadowing_metadata :
  recRANode catalogR (ra_relation "R" infoShadowing) = Err TypeError /\
  relalgTranslatable catalogR (ra_relation "R" infoShadowing) = false.
Proof. split; reflexivity. Qed.

(** The annotation step throws exactly when the metadata mapping of the AST
    node has an own key [hasOwnProperty].  When it returns, it has laid the
    annotations of the AST node over those of the tree node: the position is
    that of the AST node, the warnings stay, a metadata key the AST node
    does not declare keeps its value, the children are untouched; and
    annotating the result again changes nothing. *)
Theorem setAdditionalData_overlays_annotations (i : astInfo) (node : RANode) :
  (metaDataCopyable i = false -> setAdditionalData i node = Err TypeError) /\
  (forall root,
     setAdditionalData i node = OK root ->
     metaDataCopyable i = true /\
     n_codeInfo (nodeInfo root) = codeInfo i /\
     n_warnings (nodeInfo root) = n_warnings (nodeInfo node) /\
     (forall key,
        default ∅ (metaData i) !! key = None ->
        n_metaData (nodeInfo root) !! key = n_metaData (nodeInfo node) !! key) /\
     tail (nodes root) = tail (nodes node) /\
     setAdditionalData i root = OK root).
Proof.
  split.
  - intros H. rewrite setAdditionalData_cases, H. reflexivity.
  - intros root H. apply setAdditionalData_OK in H as [Hc ->].
    split; [exact Hc|]. rewrite nodeInfo_updateInfo, nodes_updateInfo. simpl.
    split; [reflexivity|]. split; [reflexivity|]. split; [|split].
    + intros key Hk. now apply lookup_union_r.
    + reflexivity.
    + rewrite setAdditionalData_cases, Hc. f_equal.
      rewrite updateInfo_updateInfo, nodeInfo_updateInfo. simpl.
      rewrite (assoc_L (∪)), (idemp_L (∪)).
      destruct (wrappedInParentheses i); reflexivity.
Qed.

(** The RA-syntax translator attaches no warning: in the tree it returns,
    every node that is not a relation has an empty list of warnings. *)
Theorem recRANode_operators_carry_no_warning
  (relations : gmap string (option RelationObject)) (n : relalgOperation) :
  forall root, recRANode relations n = OK root ->
  forall x, x ∈ nodes root ->
    (exists nm sch rows info, x = Relation nm sch rows info) \/
    n_warnings (nodeInfo x) = [].
Proof.
  set (P := fun x : RANode =>
              (exists nm sch rows info, x = Relation nm sch rows info) \/
              n_warnings (nodeInfo x) = []).
  assert (Hop : forall (i : astInfo) (X root : RANode),
             setAdditionalData i X = OK root ->
             n_warnings (nodeInfo X) = [] ->
             Forall P (tail (nodes X)) ->
             Forall P (nodes root)).
  { intros i X root H Hw Ht. apply setAdditionalData_OK in H as [_ ->].
    rewrite nodes_updateInfo. apply Forall_cons.
    split; [|exact Ht]. right. now rewrite nodeInfo_updateInfo. }
  assert (Hleaf : forall (i : astInfo) nm sch rows info root,
             setAdditionalData i (Relation nm sch rows info) = OK root ->
             Forall P (nodes root)).
  { intros i nm sch rows info root H. apply setAdditionalData_OK in H as [_ ->].
    simpl. apply Forall_cons. split; [left; eauto | constructor]. }
  assert (H : forall root, recRANode relations n = OK root -> Forall P (nodes root)).
  { induction n; simpl; intros root H.
    - destruct (lookupRelation relations name0) as [[r|m]|]; try discriminate.
      exact (Hleaf _ _ _ _ _ _ H).
    - destruct (codeInfo i); [|discriminate]. exact (Hleaf _ _ _ _ _ _ H).
    - inv_bind H. inv_bind H. apply (Hop _ _ _ H); [reflexivity|].
      simpl. now apply IHn.
    - inv_bind H. inv_bind H. apply (Hop _ _ _ H); [reflexivity|].
      simpl. now apply IHn.
    - inv_bind H. apply (Hop _ _ _ H); [reflexivity|]. simpl. now apply IHn.
    - inv_bind H. apply (Hop _ _ _ H); [reflexivity|]. simpl. now apply IHn.
    - inv_bind H. inv_bind H.
      specialize (IHn1 _ E). specialize (IHn2 _ E0).
      apply (Hop _ _ _ H); destruct type; try reflexivity; simpl;
        apply Forall_app; now split.
    - inv_bind H. apply (Hop _ _ _ H); [reflexivity|]. simpl. now apply IHn.
    - inv_bind H. apply (Hop _ _ _ H); [reflexivity|]. simpl. now apply IHn.
    - inv_bind H. inv_bind H. inv_bind H.
      specialize (IHn1 _ E0). specialize (IHn2 _ E1).
      apply (Hop _ _ _ H); [reflexivity|]. simpl. apply Forall_app; now split.
    - inv_bind H. inv_bind H. inv_bind H.
      specialize (IHn1 _ E). specialize (IHn2 _ E0).
      apply (Hop _ _ _ H); destruct type; try reflexivity; simpl;
        apply Forall_app; now split. }
  intros root Hroot x Hx. specialize (H root Hroot).
  rewrite Forall_forall in H. now apply H.
Qed.

Lemma recRANode_no_warning_in_projection :
  exists root,
    recRANode catalogR relalgProjection = OK root /\
    forall x, x ∈ nodes root ->
      (exists nm sch rows info, x = Relation nm sch rows info) \/
      n_warnings (nodeInfo x) = [].
Proof.
  eexists. split; [reflexivity|].
  apply (recRANode_operators_carry_no_warning catalogR relalgProjection).
  reflexivity.
Defined.
